(** * Schema search helpers of mcp-graphql: a shallow embedding

    This development models [src/helpers/search.ts]: the type printer
    [printGraphQLType], the element collector [collectSearchableElements],
    the keyword matcher [searchSchemaElements] and the path resolver
    [getElementDetails], and proves the properties the specification states
    about them.

    Conventions of the embedding.
    - The names, kinds and paths of a graph are [string]s. Free text, the
      descriptions and the queries, is a sequence of UTF-16 code units,
      [JS.Text]; the class [\s] is that of ECMAScript, and
      [String.prototype.toLowerCase], which follows the case tables of
      Unicode, is a parameter of the keyword matcher, with the laws it obeys.
    - An object used as a map ([getTypeMap()], [getFields()]) is an
      association list in insertion order, the order [Object.entries] and
      [Object.values] follow for keys that are not array indices.
    - [undefined] and [null] are [None].
    - An array that the code fills with [push] is threaded as explicit
      state. *)

From Stdlib Require Import String Ascii List Bool Arith NArith Lia Permutation.
Import ListNotations.
Local Open Scope string_scope.
Local Open Scope list_scope.
Local Open Scope nat_scope.

(** String concatenation, the [+] and the template literals of the source. *)
Infix "^^" := String.append (at level 60, right associativity).

(** ** JavaScript string primitives *)

Module JS.

(** A UTF-16 code unit, and a text as the sequence of its code units. *)
Definition CodeUnit : Type := N.
Definition Text : Type := list CodeUnit.

(** The text of a string of the model, character by character: the code
    unit of a character is its code. The strings of the model are the
    names, kinds and paths of a graph, which graphql-js keeps in ASCII. *)
Fixpoint unitsOf (s : string) : Text :=
  match s with
  | EmptyString => []
  | String c rest => N_of_ascii c :: unitsOf rest
  end.

(** [c] is matched by the regular expression class [\s]: the white space
    of ECMAScript, which is tab, vertical tab, form feed, U+FEFF and the
    space separators of Unicode, and its line terminators, which are line
    feed, carriage return, U+2028 and U+2029. *)
Definition isWhitespace (c : CodeUnit) : bool :=
  (((9 <=? c) && (c <=? 13)) || (c =? 32) || (c =? 0xA0) || (c =? 0x1680) ||
   ((0x2000 <=? c) && (c <=? 0x200A)) || (c =? 0x2028) || (c =? 0x2029) ||
   (c =? 0x202F) || (c =? 0x205F) || (c =? 0x3000) || (c =? 0xFEFF))%N.

(** Prepends [c] to the first piece of a split. *)
Definition consHead (c : ascii) (pieces : list string) : list string :=
  match pieces with
  | tok :: toks => String c tok :: toks
  | [] => [String c EmptyString]
  end.

(** [s.split(sep)] for a separator [sep] of one character: the pieces
    between the occurrences of [sep], empty pieces included. *)
Fixpoint split (sep : ascii) (s : string) : list string :=
  match s with
  | EmptyString => [EmptyString]
  | String c rest =>
      if Ascii.eqb c sep then EmptyString :: split sep rest
      else consHead c (split sep rest)
  end.

(** Prepends [c] to the first piece of a split of a text. *)
Definition consPiece (c : CodeUnit) (pieces : list Text) : list Text :=
  match pieces with
  | tok :: toks => (c :: tok) :: toks
  | [] => [[c]]
  end.

(** The pieces of [s] between the matches of [/\s+/]; [inRun] tells that the
    character before [s] belongs to a match already, so that a run of
    whitespace is one separator. *)
Fixpoint splitRuns (inRun : bool) (s : Text) : list Text :=
  match s with
  | [] => [[]]
  | c :: rest =>
      if isWhitespace c then
        if inRun then splitRuns true rest
        else [] :: splitRuns true rest
      else consPiece c (splitRuns false rest)
  end.

(** [s.split(/\s+/)] *)
Definition splitWhitespace (s : Text) : list Text := splitRuns false s.

(** [s.startsWith(p)] *)
Fixpoint startsWith (s p : string) {struct p} : bool :=
  match p, s with
  | EmptyString, _ => true
  | String _ _, EmptyString => false
  | String a p', String b s' => Ascii.eqb a b && startsWith s' p'
  end.

(** [s.slice(1)] *)
Definition slice1 (s : string) : string :=
  match s with
  | EmptyString => EmptyString
  | String _ rest => rest
  end.

(** [s.includes(sub)] *)
Fixpoint includes (s sub : string) : bool :=
  startsWith s sub ||
  match s with
  | EmptyString => false
  | String _ rest => includes rest sub
  end.

(** [s.startsWith(p)] and [s.includes(sub)] on texts. *)
Fixpoint textStartsWith (s p : Text) {struct p} : bool :=
  match p, s with
  | [], _ => true
  | _ :: _, [] => false
  | a :: p', b :: s' => N.eqb a b && textStartsWith s' p'
  end.

Fixpoint textIncludes (s sub : Text) : bool :=
  textStartsWith s sub ||
  match s with
  | [] => false
  | _ :: rest => textIncludes rest sub
  end.

(** [s.length > 0] *)
Definition nonEmpty (s : Text) : bool :=
  match s with
  | [] => false
  | _ :: _ => true
  end.

(** [x || undefined] and [x || ''] on an optional text: the empty string is
    falsy, as [undefined] and [null] are. *)
Definition orUndefined (x : option Text) : option Text :=
  match x with
  | Some [] => None
  | _ => x
  end.

Definition orEmpty (x : option Text) : Text :=
  match x with
  | Some s => s
  | None => []
  end.

(** [arr.push(x)] on the array threaded as state. *)
Definition push {A : Type} (arr : list A) (x : A) : list A := arr ++ [x].

(** An object used as a map, in insertion order. *)
Definition ObjMap (A : Type) : Type := list (string * A).

(** [m[key]] on an object without prototype: the value, or [undefined]. *)
Fixpoint get {A : Type} (m : ObjMap A) (key : string) : option A :=
  match m with
  | [] => None
  | (k, v) :: rest => if String.eqb k key then Some v else get rest key
  end.

Definition keys {A : Type} (m : ObjMap A) : list string := map fst m.
Definition values {A : Type} (m : ObjMap A) : list A := map snd m.

End JS.

(** ** The type graph

    The part of graphql-js's [GraphQLSchema] that the helpers read. A named
    type is referred to by its name, the only property the helpers read from
    a reference. *)

(** A type reference: a named type, possibly under non-null and list
    wrappers. *)
Inductive GraphQLType : Type :=
| GraphQLNamed (name : string)
| GraphQLNonNull (ofType : GraphQLType)
| GraphQLList (ofType : GraphQLType).

Record GraphQLArgument : Type := {
  arg_name : string;
  arg_type : GraphQLType;
  arg_description : option JS.Text
}.

Record GraphQLField : Type := {
  field_name : string;
  field_type : GraphQLType;
  field_description : option JS.Text;
  field_args : list GraphQLArgument
}.

(** An input field has no arguments. *)
Record GraphQLInputField : Type := {
  ifield_name : string;
  ifield_type : GraphQLType;
  ifield_description : option JS.Text
}.

Record GraphQLEnumValue : Type := {
  enum_name : string;
  enum_description : option JS.Text
}.

(** The six classes of named types, each with its name, its description and
    what [getFields()], [getTypes()] or [getValues()] returns. *)
Inductive GraphQLNamedType : Type :=
| GraphQLObjectType (name : string) (description : option JS.Text)
    (fields : JS.ObjMap GraphQLField)
| GraphQLInterfaceType (name : string) (description : option JS.Text)
    (fields : JS.ObjMap GraphQLField)
| GraphQLUnionType (name : string) (description : option JS.Text)
    (types : list string)
| GraphQLEnumType (name : string) (description : option JS.Text)
    (values : list GraphQLEnumValue)
| GraphQLInputObjectType (name : string) (description : option JS.Text)
    (fields : JS.ObjMap GraphQLInputField)
| GraphQLScalarType (name : string) (description : option JS.Text).

Record GraphQLDirective : Type := {
  dir_name : string;
  dir_description : option JS.Text;
  dir_args : list GraphQLArgument
}.

Record GraphQLSchema : Type := {
  typeMap : JS.ObjMap GraphQLNamedType;
  directives : list GraphQLDirective
}.

(** [type.name] *)
Definition type_name (t : GraphQLNamedType) : string :=
  match t with
  | GraphQLObjectType n _ _ | GraphQLInterfaceType n _ _
  | GraphQLUnionType n _ _ | GraphQLEnumType n _ _
  | GraphQLInputObjectType n _ _ | GraphQLScalarType n _ => n
  end.

(** [type.description] *)
Definition type_description (t : GraphQLNamedType) : option JS.Text :=
  match t with
  | GraphQLObjectType _ d _ | GraphQLInterfaceType _ d _
  | GraphQLUnionType _ d _ | GraphQLEnumType _ d _
  | GraphQLInputObjectType _ d _ | GraphQLScalarType _ d => d
  end.

(** [schema.getType(name)] reads the type map. *)
Definition getType (schema : GraphQLSchema) (name : string)
  : option GraphQLNamedType :=
  JS.get (typeMap schema) name.

(** [schema.getDirective(name)] is the first directive of that name. *)
Definition getDirective (schema : GraphQLSchema) (name : string)
  : option GraphQLDirective :=
  find (fun d => String.eqb (dir_name d) name) (directives schema).

(** ** The type printer, [printGraphQLType] *)

Fixpoint printGraphQLType (type : GraphQLType) : string :=
  match type with
  | GraphQLNonNull ofType => printGraphQLType ofType ^^ "!"
  | GraphQLList ofType => "[" ^^ printGraphQLType ofType ^^ "]"
  | GraphQLNamed name => name
  end.

(** ** Searchable elements *)

Inductive ElementType : Type :=
| type_element | field_element | argument_element | directive_element.

(** An entry of [args]: the name, the printed type and the description of
    one argument. *)
Record ArgInfo : Type := {
  ai_name : string;
  ai_type : string;
  ai_description : option JS.Text
}.

Record SearchableElement : Type := {
  elementType : ElementType;
  name : string;
  parentType : option string;
  description : option JS.Text;
  path : string;
  typeKind : option string;
  returnType : option string;
  args : option (list ArgInfo)
}.

(** ** The element collector, [collectSearchableElements] *)

(** The chain of [instanceof] tests that names the kind of a type. Every
    named type is of one of the six classes, so the chain's last branch,
    ['UNKNOWN'], is never taken. *)
Definition typeKindOf (type : GraphQLNamedType) : string :=
  match type with
  | GraphQLObjectType _ _ _ => "OBJECT"
  | GraphQLInterfaceType _ _ _ => "INTERFACE"
  | GraphQLUnionType _ _ _ => "UNION"
  | GraphQLEnumType _ _ _ => "ENUM"
  | GraphQLInputObjectType _ _ _ => "INPUT_OBJECT"
  | GraphQLScalarType _ _ => "SCALAR"
  end.

(** The record pushed for a type. *)
Definition typeRecord (typeName : string) (type : GraphQLNamedType)
  : SearchableElement :=
  {| elementType := type_element;
     name := typeName;
     parentType := None;
     description := JS.orUndefined (type_description type);
     path := typeName;
     typeKind := Some (typeKindOf type);
     returnType := None;
     args := None |}.

(** [field.args.map(arg => ({name, type, description}))] of the collector. *)
Definition fieldArgsOf (args : list GraphQLArgument) : list ArgInfo :=
  map (fun arg =>
         {| ai_name := arg_name arg;
            ai_type := printGraphQLType (arg_type arg);
            ai_description := JS.orUndefined (arg_description arg) |})
      args.

(** The record pushed for a field of an object or interface type. *)
Definition fieldRecord (typeName fieldName : string) (field : GraphQLField)
  : SearchableElement :=
  {| elementType := field_element;
     name := fieldName;
     parentType := Some typeName;
     description := JS.orUndefined (field_description field);
     path := typeName ^^ "." ^^ fieldName;
     typeKind := None;
     returnType := Some (printGraphQLType (field_type field));
     args := Some (fieldArgsOf (field_args field)) |}.

(** The record pushed for an argument; [owner] is the path of the field or
    of the directive that takes it. *)
Definition argumentRecord (owner : string) (arg : GraphQLArgument)
  : SearchableElement :=
  {| elementType := argument_element;
     name := arg_name arg;
     parentType := Some owner;
     description := JS.orUndefined (arg_description arg);
     path := owner ^^ "(" ^^ arg_name arg ^^ ")";
     typeKind := None;
     returnType := None;
     args := None |}.

(** The record pushed for a field of an input object type. *)
Definition inputFieldRecord (typeName fieldName : string)
  (field : GraphQLInputField) : SearchableElement :=
  {| elementType := field_element;
     name := fieldName;
     parentType := Some typeName;
     description := JS.orUndefined (ifield_description field);
     path := typeName ^^ "." ^^ fieldName;
     typeKind := None;
     returnType := None;
     args := None |}.

(** The record pushed for a directive. *)
Definition directiveRecord (directive : GraphQLDirective)
  : SearchableElement :=
  {| elementType := directive_element;
     name := dir_name directive;
     parentType := None;
     description := JS.orUndefined (dir_description directive);
     path := "@" ^^ dir_name directive;
     typeKind := None;
     returnType := None;
     args := None |}.

(** [for (const arg of args) elements.push(...)] *)
Definition collectArguments (owner : string)
  (elements : list SearchableElement) (args : list GraphQLArgument)
  : list SearchableElement :=
  fold_left (fun elements arg => JS.push elements (argumentRecord owner arg))
            args elements.

(** The body of the loop over the fields of an object or interface type. *)
Definition collectField (typeName : string)
  (elements : list SearchableElement) (entry : string * GraphQLField)
  : list SearchableElement :=
  let (fieldName, field) := entry in
  let elements := JS.push elements (fieldRecord typeName fieldName field) in
  collectArguments (typeName ^^ "." ^^ fieldName) elements (field_args field).

(** The body of the loop over the fields of an input object type. *)
Definition collectInputField (typeName : string)
  (elements : list SearchableElement) (entry : string * GraphQLInputField)
  : list SearchableElement :=
  let (fieldName, field) := entry in
  JS.push elements (inputFieldRecord typeName fieldName field).

(** The body of the loop over the entries of the type map. *)
Definition collectType (elements : list SearchableElement)
  (entry : string * GraphQLNamedType) : list SearchableElement :=
  let (typeName, type) := entry in
  if JS.startsWith typeName "__" then elements
  else
    let elements := JS.push elements (typeRecord typeName type) in
    let elements :=
      match type with
      | GraphQLObjectType _ _ fields | GraphQLInterfaceType _ _ fields =>
          fold_left (collectField typeName) fields elements
      | _ => elements
      end in
    match type with
    | GraphQLInputObjectType _ _ fields =>
        fold_left (collectInputField typeName) fields elements
    | _ => elements
    end.

(** The body of the loop over the directives. *)
Definition collectDirective (elements : list SearchableElement)
  (directive : GraphQLDirective) : list SearchableElement :=
  let elements := JS.push elements (directiveRecord directive) in
  collectArguments ("@" ^^ dir_name directive) elements (dir_args directive).

Definition collectSearchableElements (schema : GraphQLSchema)
  : list SearchableElement :=
  let elements := [] in
  let elements := fold_left collectType (typeMap schema) elements in
  fold_left collectDirective (directives schema) elements.

(** ** The keyword matcher, [searchSchemaElements] *)

(** [query.toLowerCase().split(/\s+/).filter(k => k.length > 0)] *)
Definition keywordsOf (toLowerCase : JS.Text -> JS.Text) (query : JS.Text)
  : list JS.Text :=
  filter JS.nonEmpty (JS.splitWhitespace (toLowerCase query)).

(** The text an element is searched in,
    [`${element.name} ${element.description || ''}`.toLowerCase()]. *)
Definition searchableText (toLowerCase : JS.Text -> JS.Text)
  (element : SearchableElement) : JS.Text :=
  toLowerCase (JS.unitsOf (name element) ++ JS.unitsOf " " ++
               JS.orEmpty (description element)).

(** [keywords.every(keyword => searchableText.includes(keyword))] *)
Definition matchesAll (toLowerCase : JS.Text -> JS.Text)
  (keywords : list JS.Text) (element : SearchableElement) : bool :=
  forallb (fun keyword =>
             JS.textIncludes (searchableText toLowerCase element) keyword)
          keywords.

Definition searchSchemaElements (toLowerCase : JS.Text -> JS.Text)
  (elements : list SearchableElement) (query : JS.Text)
  : list SearchableElement :=
  let keywords := keywordsOf toLowerCase query in
  if length keywords =? 0 then []
  else filter (matchesAll toLowerCase keywords) elements.

(** ** The path resolver, [getElementDetails] *)

(** An entry of [fields] in the details of a type; [fd_args] is absent for
    the fields of an input object. *)
Record FieldDetails : Type := {
  fd_name : string;
  fd_type : string;
  fd_description : option JS.Text;
  fd_args : option (list ArgInfo)
}.

Record EnumValueDetails : Type := {
  evd_name : string;
  evd_description : option JS.Text
}.

(** The object the resolver returns; a key that a shape does not set is
    [None]. *)
Record ElementDetails : Type := {
  d_elementType : ElementType;
  d_name : string;
  d_description : option JS.Text;
  d_kind : option string;
  d_fields : option (list FieldDetails);
  d_possibleTypes : option (list string);
  d_values : option (list EnumValueDetails);
  d_parentType : option string;
  d_type : option string;
  d_args : option (list ArgInfo)
}.

(** [args.map(arg => ({name, type, description}))] of the resolver, which
    keeps the description as it is. *)
Definition argDetails (args : list GraphQLArgument) : list ArgInfo :=
  map (fun arg =>
         {| ai_name := arg_name arg;
            ai_type := printGraphQLType (arg_type arg);
            ai_description := arg_description arg |})
      args.

Definition directiveDetails (directive : GraphQLDirective) : ElementDetails :=
  {| d_elementType := directive_element;
     d_name := dir_name directive;
     d_description := dir_description directive;
     d_kind := None;
     d_fields := None;
     d_possibleTypes := None;
     d_values := None;
     d_parentType := None;
     d_type := None;
     d_args := Some (argDetails (dir_args directive)) |}.

(** The [details] object of a type once its kind-specific keys are set. *)
Definition typeDetailsWith (type : GraphQLNamedType) (kind : string)
  (fields : option (list FieldDetails)) (possibleTypes : option (list string))
  (values : option (list EnumValueDetails)) : ElementDetails :=
  {| d_elementType := type_element;
     d_name := type_name type;
     d_description := type_description type;
     d_kind := Some kind;
     d_fields := fields;
     d_possibleTypes := possibleTypes;
     d_values := values;
     d_parentType := None;
     d_type := None;
     d_args := None |}.

Definition objectFieldDetails (field : GraphQLField) : FieldDetails :=
  {| fd_name := field_name field;
     fd_type := printGraphQLType (field_type field);
     fd_description := field_description field;
     fd_args := Some (argDetails (field_args field)) |}.

Definition inputFieldDetails (field : GraphQLInputField) : FieldDetails :=
  {| fd_name := ifield_name field;
     fd_type := printGraphQLType (ifield_type field);
     fd_description := ifield_description field;
     fd_args := None |}.

Definition enumValueDetails (v : GraphQLEnumValue) : EnumValueDetails :=
  {| evd_name := enum_name v; evd_description := enum_description v |}.

(** The branch of the resolver that describes a type. *)
Definition typeDetails (type : GraphQLNamedType) : ElementDetails :=
  match type with
  | GraphQLObjectType _ _ fields =>
      typeDetailsWith type "OBJECT"
        (Some (map objectFieldDetails (JS.values fields))) None None
  | GraphQLInterfaceType _ _ fields =>
      typeDetailsWith type "INTERFACE"
        (Some (map objectFieldDetails (JS.values fields))) None None
  | GraphQLUnionType _ _ types =>
      typeDetailsWith type "UNION" None (Some types) None
  | GraphQLEnumType _ _ values =>
      typeDetailsWith type "ENUM" None None
        (Some (map enumValueDetails values))
  | GraphQLInputObjectType _ _ fields =>
      typeDetailsWith type "INPUT_OBJECT"
        (Some (map inputFieldDetails (JS.values fields))) None None
  | GraphQLScalarType _ _ =>
      typeDetailsWith type "SCALAR" None None None
  end.

(** The branch of the resolver that describes a field. *)
Definition fieldDetails (typeName : string) (field : GraphQLField)
  : ElementDetails :=
  {| d_elementType := field_element;
     d_name := field_name field;
     d_description := field_description field;
     d_kind := None;
     d_fields := None;
     d_possibleTypes := None;
     d_values := None;
     d_parentType := Some typeName;
     d_type := Some (printGraphQLType (field_type field));
     d_args := Some (argDetails (field_args field)) |}.

(** [type.getFields()] when [type] is an object or an interface type, the
    two classes the field branch of the resolver accepts. *)
Definition objectFields (type : GraphQLNamedType)
  : option (JS.ObjMap GraphQLField) :=
  match type with
  | GraphQLObjectType _ _ fields | GraphQLInterfaceType _ _ fields =>
      Some fields
  | _ => None
  end.

(** [getElementDetails]; [None] is the [null] it returns when nothing is
    found. *)
Definition getElementDetails (path : string) (schema : GraphQLSchema)
  : option ElementDetails :=
  match JS.split "." path with
  | [name] =>
      if JS.startsWith name "@" then
        let directiveName := JS.slice1 name in
        match getDirective schema directiveName with
        | None => None
        | Some directive => Some (directiveDetails directive)
        end
      else
        match getType schema name with
        | None => None
        | Some type => Some (typeDetails type)
        end
  | [typeName; fieldName] =>
      match getType schema typeName with
      | None => None
      | Some type =>
          match objectFields type with
          | None => None
          | Some fields =>
              match JS.get fields fieldName with
              | None => None
              | Some field => Some (fieldDetails typeName field)
              end
          end
      end
  | _ => None
  end.

(** ** Well-formed graphs

    graphql-js builds a schema from named definitions only: every name is
    checked by [assertName] against [/^[_a-zA-Z][_a-zA-Z0-9]*$/], the type
    map and the field maps are keyed by the [name] of their values, and an
    object has each key once. *)

Definition isNameStart (c : ascii) : bool :=
  let n := nat_of_ascii c in
  ((65 <=? n) && (n <=? 90)) || ((97 <=? n) && (n <=? 122)) || (n =? 95).

Definition isNameContinue (c : ascii) : bool :=
  let n := nat_of_ascii c in
  isNameStart c || ((48 <=? n) && (n <=? 57)).

Fixpoint allChars (p : ascii -> bool) (s : string) : bool :=
  match s with
  | EmptyString => true
  | String c rest => p c && allChars p rest
  end.

Definition validName (s : string) : bool :=
  match s with
  | EmptyString => false
  | String c rest => isNameStart c && allChars isNameContinue rest
  end.

Fixpoint distinctKeys (ks : list string) : bool :=
  match ks with
  | [] => true
  | k :: rest => negb (existsb (String.eqb k) rest) && distinctKeys rest
  end.

(** A map of named definitions: distinct valid keys, each the name of its
    value. *)
Definition wfObjMap {A : Type} (nameOf : A -> string) (wfValue : A -> bool)
  (m : JS.ObjMap A) : bool :=
  distinctKeys (JS.keys m) &&
  forallb (fun entry : string * A =>
             validName (fst entry) &&
             String.eqb (nameOf (snd entry)) (fst entry) &&
             wfValue (snd entry)) m.

Definition wfArgs (args : list GraphQLArgument) : bool :=
  forallb (fun arg => validName (arg_name arg)) args.

Definition wfType (type : GraphQLNamedType) : bool :=
  match type with
  | GraphQLObjectType _ _ fields | GraphQLInterfaceType _ _ fields =>
      wfObjMap field_name (fun field => wfArgs (field_args field)) fields
  | GraphQLInputObjectType _ _ fields =>
      wfObjMap ifield_name (fun _ => true) fields
  | GraphQLUnionType _ _ types => forallb validName types
  | GraphQLEnumType _ _ values =>
      forallb (fun v => validName (enum_name v)) values
  | GraphQLScalarType _ _ => true
  end.

Definition wfSchema (schema : GraphQLSchema) : bool :=
  wfObjMap type_name wfType (typeMap schema) &&
  forallb (fun directive =>
             validName (dir_name directive) && wfArgs (dir_args directive))
          (directives schema).

(** ** The properties of the specification, in its words *)

(** The number of dots of a path. *)
Fixpoint countDots (s : string) : nat :=
  match s with
  | EmptyString => 0
  | String c rest => (if Ascii.eqb c "." then 1 else 0) + countDots rest
  end.

(** [sub] occurs in [s]. *)
Definition Substring (sub s : JS.Text) : Prop :=
  exists before after : JS.Text, s = before ++ sub ++ after.

(** Every character of [s] is whitespace. *)
Definition allWhitespace (s : JS.Text) : bool := forallb JS.isWhitespace s.

(** No character of [s] is whitespace. *)
Definition noWhitespace (s : JS.Text) : bool :=
  forallb (fun c => negb (JS.isWhitespace c)) s.

(** U+FEFF, the zero width no-break space. *)
Definition zeroWidthNoBreakSpace : JS.CodeUnit := 0xFEFF%N.


(** What the proofs use of [String.prototype.toLowerCase], which follows the
    case mappings of the Unicode Character Database. White space has no
    case mapping. The lowercase of a character that is not white space
    holds no white space and is not empty. One mapping reads its context,
    that of the capital sigma (Final_Sigma): it looks for a cased letter
    before and after the sigma, across the case-ignorable characters only;
    of the white space U+FEFF alone is case-ignorable, so the lowercase of
    a text cut at a white space character other than U+FEFF is made of the
    lowercase of both sides. *)
Record LowerCaseLaws (toLowerCase : JS.Text -> JS.Text) : Prop := {
  lower_whitespace :
    forall s, allWhitespace s = true -> toLowerCase s = s;
  lower_no_whitespace :
    forall s, noWhitespace s = true -> noWhitespace (toLowerCase s) = true;
  lower_non_empty :
    forall s, toLowerCase s = [] -> s = [];
  lower_cut :
    forall a w b,
      JS.isWhitespace w = true -> w <> zeroWidthNoBreakSpace ->
      toLowerCase (a ++ w :: b) = toLowerCase a ++ w :: toLowerCase b
}.



(** The text of an element as the specification builds it. *)
Definition specText (toLowerCase : JS.Text -> JS.Text)
  (element : SearchableElement) : JS.Text :=
  toLowerCase
    (JS.unitsOf (name element) ++ JS.unitsOf " " ++
     match description element with
     | Some d => d
     | None => []
     end).


(** The records of one field of an object or interface type: the field,
    then its arguments. *)
Definition fieldBlock (typeName : string) (entry : string * GraphQLField)
  : list SearchableElement :=
  fieldRecord typeName (fst entry) (snd entry) ::
  map (argumentRecord (typeName ^^ "." ^^ fst entry))
      (field_args (snd entry)).

(** The records of the fields of a type; an input field has no argument and
    a union, an enum or a scalar has no field. *)
Definition fieldBlocks (typeName : string) (type : GraphQLNamedType)
  : list SearchableElement :=
  match type with
  | GraphQLObjectType _ _ fields | GraphQLInterfaceType _ _ fields =>
      flat_map (fieldBlock typeName) fields
  | GraphQLInputObjectType _ _ fields =>
      map (fun entry => inputFieldRecord typeName (fst entry) (snd entry))
          fields
  | _ => []
  end.

(** The records of one type: the type, then its fields. *)
Definition typeBlock (entry : string * GraphQLNamedType)
  : list SearchableElement :=
  typeRecord (fst entry) (snd entry) :: fieldBlocks (fst entry) (snd entry).

(** The records of one directive: the directive, then its arguments. *)
Definition directiveBlock (directive : GraphQLDirective)
  : list SearchableElement :=
  directiveRecord directive ::
  map (argumentRecord ("@" ^^ dir_name directive)) (dir_args directive).

Definition isMetaEntry {A : Type} (entry : string * A) : bool :=
  JS.startsWith (fst entry) "__".

(** The type map without its meta types. *)
Definition nonMetaTypes (schema : GraphQLSchema)
  : JS.ObjMap GraphQLNamedType :=
  filter (fun entry => negb (isMetaEntry entry)) (typeMap schema).

(** The insertion order the specification gives for the collected list. *)
Definition specOrder (schema : GraphQLSchema) : list SearchableElement :=
  flat_map typeBlock (nonMetaTypes schema) ++
  flat_map directiveBlock (directives schema).

(** A detail record describes the element [e]: same name, same element type
    and, for a type, same kind. *)
Definition describes (d : ElementDetails) (e : SearchableElement) : Prop :=
  d_name d = name e /\
  d_elementType d = elementType e /\
  (elementType e = type_element -> d_kind d = typeKind e).

(** The elements whose path is of one of the three shapes of the resolver:
    the types, the directives and the fields that carry a [returnType],
    which are those of the object and interface types. *)
Definition addressable (e : SearchableElement) : bool :=
  match elementType e with
  | type_element | directive_element => true
  | field_element =>
      match returnType e with
      | Some _ => true
      | None => false
      end
  | argument_element => false
  end.

(** The names of the fields of a type. *)
Definition fieldNames (type : GraphQLNamedType) : list string :=
  match type with
  | GraphQLObjectType _ _ fields | GraphQLInterfaceType _ _ fields =>
      JS.keys fields
  | GraphQLInputObjectType _ _ fields => JS.keys fields
  | _ => []
  end.

Definition isObjectOrInterface (type : GraphQLNamedType) : Prop :=
  typeKindOf type = "OBJECT" \/ typeKindOf type = "INTERFACE".

(** The paths that match no element under the grammar of three shapes:
    two dots or more; [@name] with no directive of that name; a bare name
    that is not in the type map; [TypeName.fieldName] where the type is
    absent, is neither an object nor an interface type, or has no such
    field. *)
Definition specNotFound (path : string) (schema : GraphQLSchema) : Prop :=
  2 <= countDots path \/
  (countDots path = 0 /\ JS.startsWith path "@" = true /\
   ~ In (JS.slice1 path) (map dir_name (directives schema))) \/
  (countDots path = 0 /\ JS.startsWith path "@" = false /\
   ~ In path (JS.keys (typeMap schema))) \/
  (exists typeName fieldName,
     path = typeName ^^ "." ^^ fieldName /\
     countDots typeName = 0 /\ countDots fieldName = 0 /\
     (~ In typeName (JS.keys (typeMap schema)) \/
      exists type, JS.get (typeMap schema) typeName = Some type /\
                   (~ isObjectOrInterface type \/
                    ~ In fieldName (fieldNames type)))).

(** The printed form of a type reference, as a relation: a non-null
    wrapper prints its reference followed by an exclamation mark, a list
    wrapper prints it between square brackets, a named type prints its
    name. *)
Inductive Printed : GraphQLType -> string -> Prop :=
| Printed_nonNull (R : GraphQLType) (s : string) :
    Printed R s -> Printed (GraphQLNonNull R) (s ^^ "!")
| Printed_list (R : GraphQLType) (s : string) :
    Printed R s -> Printed (GraphQLList R) ("[" ^^ s ^^ "]")
| Printed_named (n : string) :
    Printed (GraphQLNamed n) n.

(** ** The lowercasing of the examples

    [String.prototype.toLowerCase] on the texts the examples are made of:
    the ASCII characters, the Greek letters from alpha to omega in both
    cases, and U+FEFF. On these the cased letters are the ASCII and the
    Greek letters, the case-ignorable characters are the apostrophe, the
    full stop, the colon, the circumflex, the grave accent and U+FEFF, and a
    capital sigma becomes a final sigma when a cased letter comes before it
    and none after it, case-ignorable characters set aside. *)

Definition isAsciiUpper (c : JS.CodeUnit) : bool :=
  ((65 <=? c) && (c <=? 90))%N.

Definition isGreekUpper (c : JS.CodeUnit) : bool :=
  ((0x391 <=? c) && (c <=? 0x3A9) && negb (c =? 0x3A2))%N.

Definition capitalSigma : JS.CodeUnit := 0x3A3%N.
Definition finalSigma : JS.CodeUnit := 0x3C2%N.
Definition smallSigma : JS.CodeUnit := 0x3C3%N.

Definition lowerUnit (c : JS.CodeUnit) : JS.CodeUnit :=
  if isAsciiUpper c || isGreekUpper c then (c + 32)%N else c.

Definition isCased (c : JS.CodeUnit) : bool :=
  isAsciiUpper c || ((97 <=? c) && (c <=? 122))%N ||
  isGreekUpper c || ((0x3B1 <=? c) && (c <=? 0x3C9))%N.

Definition isCaseIgnorable (c : JS.CodeUnit) : bool :=
  ((c =? 39) || (c =? 46) || (c =? 58) || (c =? 94) || (c =? 96) ||
   (c =? 0xFEFF))%N.

(** A cased letter follows, case-ignorable characters set aside. *)
Fixpoint beforeCased (s : JS.Text) : bool :=
  match s with
  | [] => false
  | c :: rest => if isCaseIgnorable c then beforeCased rest else isCased c
  end.

(** The lowercase of [s]; [afterCased] tells that a cased letter comes
    before [s], case-ignorable characters set aside. *)
Fixpoint lowerFrom (afterCased : bool) (s : JS.Text) : JS.Text :=
  match s with
  | [] => []
  | c :: rest =>
      (if N.eqb c capitalSigma
       then if afterCased && negb (beforeCased rest)
            then finalSigma else smallSigma
       else lowerUnit c)
      :: lowerFrom (if isCaseIgnorable c then afterCased else isCased c) rest
  end.

Definition exampleLowerCase (s : JS.Text) : JS.Text := lowerFrom false s.

(** ** Example graphs *)

Definition mkArg (n : string) (t : GraphQLType) : GraphQLArgument :=
  {| arg_name := n; arg_type := t; arg_description := None |}.

Definition mkField (n : string) (t : GraphQLType)
  (a : list GraphQLArgument) : GraphQLField :=
  {| field_name := n; field_type := t; field_description := None;
     field_args := a |}.

(** [type User { id: ID!, name: String }], no directive. *)
Definition userType : GraphQLNamedType :=
  GraphQLObjectType "User" None
    [("id", mkField "id" (GraphQLNonNull (GraphQLNamed "ID")) []);
     ("name", mkField "name" (GraphQLNamed "String") [])].

Definition userSchema : GraphQLSchema :=
  {| typeMap := [("User", userType)]; directives := [] |}.

(** [directive @deprecated(reason: String)] *)
Definition deprecatedDirective : GraphQLDirective :=
  {| dir_name := "deprecated"; dir_description := None;
     dir_args := [mkArg "reason" (GraphQLNamed "String")] |}.

(** A graph with a field that takes an argument, an input object, a meta
    type and a directive. *)
Definition queryType : GraphQLNamedType :=
  GraphQLObjectType "Query" (Some (JS.unitsOf "Root query"))
    [("user", mkField "user" (GraphQLNamed "User")
                [mkArg "id" (GraphQLNonNull (GraphQLNamed "ID"))])].

Definition filterType : GraphQLNamedType :=
  GraphQLInputObjectType "UserFilter" None
    [("active", {| ifield_name := "active";
                   ifield_type := GraphQLNamed "Boolean";
                   ifield_description := Some (JS.unitsOf "Only active users") |})].

Definition metaSchemaType : GraphQLNamedType :=
  GraphQLObjectType "__Schema" None
    [("types", mkField "types"
                 (GraphQLNonNull (GraphQLList (GraphQLNamed "__Type"))) [])].

Definition sampleSchema : GraphQLSchema :=
  {| typeMap := [("Query", queryType); ("User", userType);
                 ("UserFilter", filterType); ("__Schema", metaSchemaType);
                 ("ID", GraphQLScalarType "ID" None)];
     directives := [deprecatedDirective] |}.

(** The argument record and the input field record of [sampleSchema]. *)
Definition userIdArgument : SearchableElement :=
  argumentRecord "Query.user" (mkArg "id" (GraphQLNonNull (GraphQLNamed "ID"))).

Definition activeInputField : SearchableElement :=
  inputFieldRecord "UserFilter" "active"
    {| ifield_name := "active"; ifield_type := GraphQLNamed "Boolean";
       ifield_description := Some (JS.unitsOf "Only active users") |}.

(** The record of the field [User.id]. *)
Definition userIdField : SearchableElement :=
  fieldRecord "User" "id"
    (mkField "id" (GraphQLNonNull (GraphQLNamed "ID")) []).


(** The graph of the directive [@deprecated] alone. *)
Definition deprecatedSchema : GraphQLSchema :=
  {| typeMap := []; directives := [deprecatedDirective] |}.

(** ** Notions for the further properties *)

(** An argument entry with an empty description dropped, as the collector
    drops it. *)
Definition normalizeArg (a : ArgInfo) : ArgInfo :=
  {| ai_name := ai_name a;
     ai_type := ai_type a;
     ai_description := JS.orUndefined (ai_description a) |}.

(** The keys that the kind of a collected record sets: a type has a kind
    and nothing else, a field has a parent and has its return type and its
    arguments together or not at all, an argument has a parent only, a
    directive has none of them. *)
Definition recordShape (e : SearchableElement) : Prop :=
  match elementType e with
  | type_element =>
      parentType e = None /\ returnType e = None /\ args e = None /\
      exists kind, typeKind e = Some kind /\
                   In kind ["OBJECT"; "INTERFACE"; "UNION"; "ENUM";
                            "INPUT_OBJECT"; "SCALAR"]
  | field_element =>
      parentType e <> None /\ typeKind e = None /\
      (returnType e = None <-> args e = None)
  | argument_element =>
      parentType e <> None /\ typeKind e = None /\
      returnType e = None /\ args e = None
  | directive_element =>
      parentType e = None /\ typeKind e = None /\
      returnType e = None /\ args e = None
  end.

(** The element type of the parent of a record. *)
Definition parentElementType (child parent : ElementType) : Prop :=
  match child with
  | field_element => parent = type_element
  | argument_element => parent = field_element \/ parent = directive_element
  | _ => False
  end.

(** The record of the field [Query.user] and the details of the fields
    [User.id] and [UserFilter.active] as their types list them. *)
Definition queryUserField : SearchableElement :=
  fieldRecord "Query" "user"
    (mkField "user" (GraphQLNamed "User")
       [mkArg "id" (GraphQLNonNull (GraphQLNamed "ID"))]).

Definition userIdListed : FieldDetails :=
  objectFieldDetails (mkField "id" (GraphQLNonNull (GraphQLNamed "ID")) []).

Definition activeListed : FieldDetails :=
  inputFieldDetails
    {| ifield_name := "active"; ifield_type := GraphQLNamed "Boolean";
       ifield_description := Some (JS.unitsOf "Only active users") |}.

(** The names that are distinct in a graph besides the keys of its maps:
    graphql-js builds the arguments of a field or of a directive from an
    object keyed by their names, and a validated schema has one directive of
    each name. *)
Definition distinctArgNames (args : list GraphQLArgument) : bool :=
  distinctKeys (map arg_name args).

Definition distinctFieldArgs (type : GraphQLNamedType) : bool :=
  match objectFields type with
  | Some fields =>
      forallb (fun entry : string * GraphQLField =>
                 distinctArgNames (field_args (snd entry))) fields
  | None => true
  end.

Definition uniquelyNamed (schema : GraphQLSchema) : bool :=
  distinctKeys (map dir_name (directives schema)) &&
  forallb (fun directive => distinctArgNames (dir_args directive))
          (directives schema) &&
  forallb (fun entry : string * GraphQLNamedType =>
             distinctFieldArgs (snd entry)) (typeMap schema).

(** The longest prefix of a string that is made of the characters of a
    name. *)
Fixpoint nameHead (s : string) : string :=
  match s with
  | EmptyString => EmptyString
  | String c rest =>
      if isNameContinue c then String c (nameHead rest) else EmptyString
  end.

(** The paths of a field or a directive and of its arguments, without what
    precedes the name of the field or directive. *)
Definition memberSuffixes (memberName : string) (args : list GraphQLArgument)
  : list string :=
  memberName ::
  map (fun arg => memberName ^^ "(" ^^ arg_name arg ^^ ")") args.

(** The paths of the fields of a type and of their arguments, without the
    name of the type and the dot. *)
Definition fieldSuffixes (type : GraphQLNamedType) : list string :=
  match type with
  | GraphQLObjectType _ _ fields | GraphQLInterfaceType _ _ fields =>
      flat_map (fun entry : string * GraphQLField =>
                  memberSuffixes (fst entry) (field_args (snd entry))) fields
  | GraphQLInputObjectType _ _ fields =>
      flat_map (fun entry : string * GraphQLInputField =>
                  memberSuffixes (fst entry) []) fields
  | _ => []
  end.

(** The named types under the wrappers of a type reference have valid
    names. *)
Fixpoint namesValid (type : GraphQLType) : bool :=
  match type with
  | GraphQLNamed n => validName n
  | GraphQLNonNull ofType | GraphQLList ofType => namesValid ofType
  end.

(** ** The tools of the server, [index.ts]

    A tool handler awaits its collaborators inside [try] blocks. The
    outcome of a collaborator is modelled by its value or by the rendering
    [`${error}`] of what it throws; the parser [parse] of graphql-js, the
    schema loader [getSchemaForSearch] and [JSON.stringify] stay outside the
    model and enter it by their outcomes. *)

Inductive Outcome (A : Type) : Type :=
| Returned (value : A)
| Thrown (error : string).

Arguments Returned {A} value.
Arguments Thrown {A} error.

(** What a handler reads of a definition of a parsed document: its [kind]
    and, on an operation, its [operation]. *)
Record DefinitionNode : Type := {
  def_kind : string;
  def_operation : option string
}.

(** The result of a tool: one text content, with [isError] when it is set. *)
Record ToolResult : Type := {
  isError : bool;
  text : string
}.

(** [parsedQuery.definitions.some(def => def.kind === "OperationDefinition"
    && def.operation === "mutation")] *)
Definition isMutation (definitions : list DefinitionNode) : bool :=
  existsb (fun def =>
             String.eqb (def_kind def) "OperationDefinition" &&
             match def_operation def with
             | Some operation => String.eqb operation "mutation"
             | None => false
             end)
          definitions.

Definition mutationsNotAllowed : string :=
  "Mutations are not allowed unless you enable them in the configuration. Please use a query operation instead.".

(** The first [try] block of the tool [query-graphql]: the result it
    returns before any request is sent, or [None] when the handler goes on
    to send the query to the endpoint. *)
Definition queryGate (parsed : Outcome (list DefinitionNode))
  (allowMutations : bool) : option ToolResult :=
  match parsed with
  | Thrown error =>
      Some {| isError := true; text := "Invalid GraphQL query: " ^^ error |}
  | Returned definitions =>
      if isMutation definitions && negb allowMutations
      then Some {| isError := true; text := mutationsNotAllowed |}
      else None
  end.

(** The handler of the tool [get-schema-element-details], given the outcome
    of loading the schema. *)
Definition getSchemaElementDetailsTool
  (stringify : ElementDetails -> string)
  (loaded : Outcome GraphQLSchema) (path : string) : ToolResult :=
  match loaded with
  | Thrown error =>
      {| isError := true;
         text := "Failed to get element details: " ^^ error |}
  | Returned schema =>
      match getElementDetails path schema with
      | None =>
          {| isError := true; text := "Element not found: " ^^ path |}
      | Some details =>
          {| isError := false; text := stringify details |}
      end
  end.

(** Documents for the examples: a query with a fragment, and a query
    followed by a mutation. *)
Definition queryDefinition : DefinitionNode :=
  {| def_kind := "OperationDefinition"; def_operation := Some "query" |}.

Definition mutationDefinition : DefinitionNode :=
  {| def_kind := "OperationDefinition"; def_operation := Some "mutation" |}.

Definition fragmentDefinition : DefinitionNode :=
  {| def_kind := "FragmentDefinition"; def_operation := None |}.

(** Texts for the examples of the keyword matcher: a query of white space
    of several kinds, the two orders of the tokens [ΑΣ] and [Β] around
    U+FEFF, and a scalar type described by the letters [ασβ]. *)
Definition blankQuery : JS.Text := [0xA0; 0x3000; 32; 0x2028; 0xFEFF]%N.




(** * Proofs *)

(** ** Strings *)

Section StringFacts.

Lemma append_empty_r (s : string) : s ^^ EmptyString = s.
Proof.
  induction s as [|c s IH]; simpl; [reflexivity | now rewrite IH].
Qed.

Lemma append_assoc (a b c : string) : (a ^^ b) ^^ c = a ^^ b ^^ c.
Proof.
  induction a as [|x a IH]; simpl; [reflexivity | now rewrite IH].
Qed.

Lemma startsWith_iff (s p : string) :
  JS.startsWith s p = true <-> exists rest, s = p ^^ rest.
Proof.
  revert s; induction p as [|a p IH]; intros s; simpl.
  - split; [intros _; now exists s | reflexivity].
  - destruct s as [|b s].
    + split; [discriminate | intros [rest H]; discriminate].
    + rewrite andb_true_iff, IH, Ascii.eqb_eq. split.
      * intros [-> [rest ->]]. now exists rest.
      * intros [rest H]. injection H as -> ->. split; [reflexivity | now exists rest].
Qed.

Lemma startsWith_trans (s p q : string) :
  JS.startsWith s p = true -> JS.startsWith p q = true ->
  JS.startsWith s q = true.
Proof.
  rewrite !startsWith_iff. intros [r1 ->] [r2 ->].
  exists (r2 ^^ r1). apply append_assoc.
Qed.

Lemma startsWith_append (p rest : string) : JS.startsWith (p ^^ rest) p = true.
Proof. apply startsWith_iff. now exists rest. Qed.

End StringFacts.

(** ** Texts *)

(** Decides a goal about the classes of code units, which are ranges. *)
Ltac unit_arith :=
  unfold lowerUnit, isCased in *;
  unfold JS.isWhitespace, zeroWidthNoBreakSpace, isAsciiUpper, isGreekUpper,
    isCaseIgnorable, capitalSigma, finalSigma, smallSigma, JS.CodeUnit in *;
  repeat match goal with
         | |- context [if ?b then _ else _] => destruct b eqn:?
         end;
  rewrite ?orb_true_iff, ?andb_true_iff, ?orb_false_iff, ?andb_false_iff,
    ?negb_true_iff, ?negb_false_iff, ?N.leb_le, ?N.leb_gt, ?N.eqb_eq,
    ?N.eqb_neq in *;
  lia.

Section TextFacts.

Lemma textStartsWith_iff (s p : JS.Text) :
  JS.textStartsWith s p = true <-> exists rest, s = p ++ rest.
Proof.
  revert s; induction p as [|a p IH]; intros s; simpl.
  - split; [intros _; now exists s | reflexivity].
  - destruct s as [|b s].
    + split; [discriminate | intros [rest H]; discriminate].
    + rewrite andb_true_iff, IH, N.eqb_eq. split.
      * intros [-> [rest ->]]. now exists rest.
      * intros [rest H]. injection H as -> ->.
        split; [reflexivity | now exists rest].
Qed.

Lemma textIncludes_iff (s sub : JS.Text) :
  JS.textIncludes s sub = true <-> Substring sub s.
Proof.
  unfold Substring. induction s as [|c s IH].
  - simpl. rewrite orb_false_r, textStartsWith_iff. split.
    + intros [rest H]. exists [], rest. exact H.
    + intros [[|x before] [after H]]; [now exists after | discriminate].
  - cbn [JS.textIncludes]. rewrite orb_true_iff, IH, textStartsWith_iff.
    split.
    + intros [[rest H] | [before [after H]]].
      * exists [], rest. exact H.
      * exists (c :: before), after. simpl. now rewrite H.
    + intros [[|x before] [after H]].
      * left. now exists after.
      * right. simpl in H. injection H as _ H. now exists before, after.
Qed.

Lemma splitRuns_not_nil (s : JS.Text) (inRun : bool) :
  JS.splitRuns inRun s <> [].
Proof.
  revert inRun; induction s as [|c s IH]; intros inRun; simpl;
    [discriminate|].
  destruct (JS.isWhitespace c).
  - destruct inRun; [apply IH | discriminate].
  - destruct (JS.splitRuns false s); discriminate.
Qed.

(** A text of whitespace only splits into empty pieces. *)
Lemma splitRuns_allWhitespace (s : JS.Text) (inRun : bool) :
  allWhitespace s = true ->
  filter JS.nonEmpty (JS.splitRuns inRun s) = [].
Proof.
  unfold allWhitespace.
  revert inRun; induction s as [|c s IH]; intros inRun; simpl.
  - reflexivity.
  - intros H. apply andb_true_iff in H as [Hc Hs]. rewrite Hc.
    destruct inRun; simpl; now apply IH.
Qed.

(** A text without whitespace is one piece. *)
Lemma splitRuns_one_piece (s : JS.Text) (inRun : bool) :
  noWhitespace s = true -> JS.splitRuns inRun s = [s].
Proof.
  unfold noWhitespace.
  revert inRun; induction s as [|c s IH]; intros inRun; simpl;
    [reflexivity|].
  intros H. apply andb_true_iff in H as [Hc Hs].
  apply negb_true_iff in Hc. now rewrite Hc, IH.
Qed.


Variable h : JS.Text -> JS.Text.
Hypothesis h_nil : h [] = [].

(** The pieces that are kept once [h] is applied to each, in terms of the
    first piece and of the others. *)
Lemma kept_consPiece (c : JS.CodeUnit) (pieces : list JS.Text) :
  filter JS.nonEmpty (map h (JS.consPiece c pieces)) =
  filter JS.nonEmpty [h (c :: hd [] pieces)] ++
  filter JS.nonEmpty (map h (tl pieces)).
Proof.
  destruct pieces as [|p pieces]; simpl.
  - now destruct (JS.nonEmpty (h [c])).
  - now destruct (JS.nonEmpty (h (c :: p))).
Qed.

Lemma hd_consPiece (c : JS.CodeUnit) (pieces : list JS.Text) :
  hd [] (JS.consPiece c pieces) = c :: hd [] pieces.
Proof. destruct pieces; reflexivity. Qed.

Lemma tl_consPiece (c : JS.CodeUnit) (pieces : list JS.Text) :
  tl (JS.consPiece c pieces) = tl pieces.
Proof. destruct pieces; reflexivity. Qed.

Lemma kept_hd_tl (pieces : list JS.Text) :
  pieces <> [] ->
  filter JS.nonEmpty (map h pieces) =
  filter JS.nonEmpty [h (hd [] pieces)] ++
  filter JS.nonEmpty (map h (tl pieces)).
Proof.
  destruct pieces as [|p pieces]; [congruence|]. intros _. simpl.
  now destruct (JS.nonEmpty (h p)).
Qed.

(** Whether a run of whitespace has begun changes the empty pieces only. *)
Lemma kept_any_run (s : JS.Text) :
  filter JS.nonEmpty (map h (JS.splitRuns true s)) =
  filter JS.nonEmpty (map h (JS.splitRuns false s)).
Proof.
  destruct s as [|c s]; simpl; [reflexivity|].
  destruct (JS.isWhitespace c); [|reflexivity].
  simpl. now rewrite h_nil.
Qed.

(** The pieces of two texts joined by a whitespace character. *)
Lemma splitRuns_join (w : JS.CodeUnit) (s1 s2 : JS.Text) :
  JS.isWhitespace w = true ->
  filter JS.nonEmpty (map h (JS.splitRuns true (s1 ++ w :: s2))) =
    filter JS.nonEmpty (map h (JS.splitRuns true s1)) ++
    filter JS.nonEmpty (map h (JS.splitRuns true s2)) /\
  hd [] (JS.splitRuns false (s1 ++ w :: s2)) =
    hd [] (JS.splitRuns false s1) /\
  filter JS.nonEmpty (map h (tl (JS.splitRuns false (s1 ++ w :: s2)))) =
    filter JS.nonEmpty (map h (tl (JS.splitRuns false s1))) ++
    filter JS.nonEmpty (map h (JS.splitRuns true s2)).
Proof.
  intros W. induction s1 as [|c s1 (IHa & IHh & IHt)]; simpl.
  - rewrite W. simpl. rewrite h_nil. simpl. repeat split.
  - destruct (JS.isWhitespace c); simpl.
    + repeat split; assumption.
    + rewrite !kept_consPiece, !hd_consPiece, !tl_consPiece, IHh, IHt.
      rewrite <- !app_assoc. repeat split.
Qed.

Lemma kept_join (w : JS.CodeUnit) (s1 s2 : JS.Text) :
  JS.isWhitespace w = true ->
  filter JS.nonEmpty (map h (JS.splitRuns false (s1 ++ w :: s2))) =
  filter JS.nonEmpty (map h (JS.splitRuns false s1)) ++
  filter JS.nonEmpty (map h (JS.splitRuns false s2)).
Proof.
  intros W. destruct (splitRuns_join w s1 s2 W) as (_ & Hh & Ht).
  rewrite (kept_hd_tl _ (splitRuns_not_nil (s1 ++ w :: s2) false)).
  rewrite (kept_hd_tl _ (splitRuns_not_nil s1 false)).
  now rewrite Hh, Ht, <- app_assoc, kept_any_run.
Qed.


End TextFacts.


(** ** Keywords under the laws of lowercasing *)

Section Keywords.

Variable toLowerCase : JS.Text -> JS.Text.
Hypothesis lowerCaseLaws : LowerCaseLaws toLowerCase.


(** The tokens of two texts joined by a whitespace character. *)
Lemma tokens_join (w : JS.CodeUnit) (s1 s2 : JS.Text) :
  JS.isWhitespace w = true ->
  filter JS.nonEmpty (JS.splitRuns false (s1 ++ w :: s2)) =
  filter JS.nonEmpty (JS.splitRuns false s1) ++
  filter JS.nonEmpty (JS.splitRuns false s2).
Proof.
  intros W.
  pose proof (kept_join (fun piece => piece) eq_refl w s1 s2 W) as K.
  now rewrite !map_id in K.
Qed.

(** A query of whitespace only has no keyword. *)
Lemma keywordsOf_blank (query : JS.Text) :
  allWhitespace query = true -> keywordsOf toLowerCase query = [].
Proof.
  intros H. unfold keywordsOf, JS.splitWhitespace.
  rewrite (lower_whitespace _ lowerCaseLaws query H).
  now apply splitRuns_allWhitespace.
Qed.

(** The keywords of a text cut at a whitespace character other than U+FEFF
    are the keywords of both sides. *)
Lemma keywordsOf_cut (a b : JS.Text) (w : JS.CodeUnit) :
  JS.isWhitespace w = true -> w <> zeroWidthNoBreakSpace ->
  keywordsOf toLowerCase (a ++ w :: b) =
  keywordsOf toLowerCase a ++ keywordsOf toLowerCase b.
Proof.
  intros W Z. unfold keywordsOf, JS.splitWhitespace.
  rewrite (lower_cut _ lowerCaseLaws a w b W Z).
  now apply tokens_join.
Qed.





End Keywords.

(** ** Splitting a path at its dots *)

Section PathFacts.

Lemma consHead_length (c : ascii) (pieces : list string) :
  pieces <> [] -> length (JS.consHead c pieces) = length pieces.
Proof. destruct pieces; [congruence | reflexivity]. Qed.

Lemma split_not_nil (sep : ascii) (s : string) : JS.split sep s <> [].
Proof.
  destruct s as [|c s]; simpl; [discriminate|].
  destruct (Ascii.eqb c sep); [discriminate|].
  destruct (JS.split sep s); discriminate.
Qed.

(** [path.split('.')] has one part more than the path has dots. *)
Lemma split_length (s : string) :
  length (JS.split "." s) = countDots s + 1.
Proof.
  induction s as [|c s IH]; simpl; [reflexivity|].
  destruct (Ascii.eqb c "."); simpl.
  - now rewrite IH.
  - rewrite consHead_length by apply split_not_nil. exact IH.
Qed.

Lemma split_dotless (s : string) :
  countDots s = 0 -> JS.split "." s = [s].
Proof.
  induction s as [|c s IH]; simpl; [reflexivity|].
  destruct (Ascii.eqb c "."); [discriminate|].
  intros H. now rewrite IH.
Qed.

Lemma split_append_dot (a b : string) :
  countDots a = 0 ->
  JS.split "." (a ^^ "." ^^ b) = a :: JS.split "." b.
Proof.
  induction a as [|c a IH]; simpl in *; [reflexivity|].
  destruct (Ascii.eqb c "."); [discriminate|].
  intros H. now rewrite IH.
Qed.

(** A split into one part is the path itself, without a dot. *)
Lemma split_one (s name : string) :
  JS.split "." s = [name] -> name = s /\ countDots s = 0.
Proof.
  intros H. assert (Hd : countDots s = 0).
  { pose proof (split_length s) as L. rewrite H in L. simpl in L. lia. }
  split; [|exact Hd]. rewrite (split_dotless s Hd) in H. congruence.
Qed.

(** A split into two parts cuts the path at its only dot. *)
Lemma split_two (s a b : string) :
  JS.split "." s = [a; b] ->
  s = a ^^ "." ^^ b /\ countDots a = 0 /\ countDots b = 0.
Proof.
  revert a; induction s as [|c s IH]; intros a; simpl; [discriminate|].
  destruct (Ascii.eqb c ".") eqn:E.
  - apply Ascii.eqb_eq in E. subst c. intros H.
    injection H as <- H. apply split_one in H as [-> Hd].
    now repeat split.
  - destruct (JS.split "." s) as [|tok [|tok' toks]] eqn:S; simpl;
      try discriminate.
    intros H. injection H as <- <- ->.
    destruct (IH tok eq_refl) as (-> & Ha & Hb).
    repeat split; simpl; [now rewrite E | exact Hb].
Qed.

Lemma countDots_append (a b : string) :
  countDots (a ^^ b) = countDots a + countDots b.
Proof.
  induction a as [|c a IH]; simpl; [reflexivity | rewrite IH; lia].
Qed.

Lemma split_parts (s : string) :
  (countDots s = 0 /\ JS.split "." s = [s]) \/
  (countDots s = 1 /\ exists a b, JS.split "." s = [a; b]) \/
  (2 <= countDots s /\ 3 <= length (JS.split "." s)).
Proof.
  pose proof (split_length s) as L.
  destruct (countDots s) as [|[|n]] eqn:D.
  - left. split; [reflexivity | now apply split_dotless].
  - right; left. split; [reflexivity|].
    destruct (JS.split "." s) as [|a [|b [|c l]]]; simpl in L; try lia.
    now exists a, b.
  - right; right. split; lia.
Qed.

End PathFacts.

(** ** Names *)

Section NameFacts.

Lemma isNameContinue_not_dot (c : ascii) :
  isNameContinue c = true -> Ascii.eqb c "." = false.
Proof.
  destruct c as [[] [] [] [] [] [] [] []]; vm_compute; congruence.
Qed.

Lemma isNameStart_continue (c : ascii) :
  isNameStart c = true -> isNameContinue c = true.
Proof. unfold isNameContinue. now intros ->. Qed.

Lemma allChars_continue_dotless (s : string) :
  allChars isNameContinue s = true -> countDots s = 0.
Proof.
  induction s as [|c s IH]; simpl; [reflexivity|].
  intros H. apply andb_true_iff in H as [Hc Hs].
  now rewrite (isNameContinue_not_dot c Hc), IH.
Qed.

(** A valid name has no dot. *)
Lemma validName_dotless (s : string) :
  validName s = true -> countDots s = 0.
Proof.
  destruct s as [|c s]; simpl; [discriminate|].
  intros H. apply andb_true_iff in H as [Hc Hs].
  rewrite (isNameContinue_not_dot c (isNameStart_continue c Hc)).
  now apply allChars_continue_dotless.
Qed.

(** A valid name does not start with the mark of the directives. *)
Lemma validName_not_directive (s : string) :
  validName s = true -> JS.startsWith s "@" = false.
Proof.
  destruct s as [|c s]; simpl; [discriminate|].
  intros H. apply andb_true_iff in H as [Hc _]. revert Hc.
  destruct c as [[] [] [] [] [] [] [] []]; vm_compute; congruence.
Qed.

Lemma allChars_append (p : ascii -> bool) (a b : string) :
  allChars p (a ^^ b) = allChars p a && allChars p b.
Proof.
  induction a as [|c a IH]; simpl; [reflexivity|].
  now rewrite IH, andb_assoc.
Qed.

Lemma validName_allChars (s : string) :
  validName s = true -> allChars isNameContinue s = true.
Proof.
  destruct s as [|c s]; simpl; [reflexivity|].
  intros H. apply andb_true_iff in H as [Hc Hs].
  now rewrite (isNameStart_continue c Hc), Hs.
Qed.

(** The path of an argument, with its parenthesis, is not a name. *)
Lemma validName_no_parenthesis (a b : string) :
  validName (a ^^ "(" ^^ b) = false.
Proof.
  destruct (validName (a ^^ "(" ^^ b)) eqn:V; [|reflexivity].
  apply validName_allChars in V. rewrite allChars_append in V.
  apply andb_true_iff in V as [_ V]. discriminate V.
Qed.

End NameFacts.

(** ** Objects used as maps *)

Section ObjMapFacts.

Context {A : Type}.

Lemma get_None_iff (m : JS.ObjMap A) (key : string) :
  JS.get m key = None <-> ~ In key (JS.keys m).
Proof.
  induction m as [|[k v] m IH]; simpl.
  - tauto.
  - destruct (String.eqb k key) eqn:E.
    + apply String.eqb_eq in E. split; [discriminate | tauto].
    + apply String.eqb_neq in E. rewrite IH. tauto.
Qed.

Lemma get_Some_In (m : JS.ObjMap A) (key : string) (v : A) :
  JS.get m key = Some v -> In (key, v) m.
Proof.
  induction m as [|[k w] m IH]; simpl; [discriminate|].
  destruct (String.eqb k key) eqn:E.
  - apply String.eqb_eq in E. intros H. injection H as ->. left. now subst.
  - intros H. right. now apply IH.
Qed.

Lemma existsb_eqb_In (k : string) (ks : list string) :
  existsb (String.eqb k) ks = true <-> In k ks.
Proof.
  rewrite existsb_exists. split.
  - intros [x [Hin E]]. apply String.eqb_eq in E. now subst.
  - intros H. exists k. split; [exact H | apply String.eqb_refl].
Qed.

(** With distinct keys an entry of the map is what its key reads. *)
Lemma get_In_distinct (m : JS.ObjMap A) (key : string) (v : A) :
  distinctKeys (JS.keys m) = true -> In (key, v) m -> JS.get m key = Some v.
Proof.
  induction m as [|[k w] m IH]; simpl; [tauto|].
  intros D [H | H]; apply andb_true_iff in D as [Dk Dm].
  - injection H as -> ->. now rewrite String.eqb_refl.
  - destruct (String.eqb k key) eqn:E; [|now apply IH].
    apply String.eqb_eq in E. subst k.
    apply negb_true_iff in Dk.
    assert (Hk : In key (JS.keys m)) by (apply (in_map fst _ _ H)).
    apply existsb_eqb_In in Hk. congruence.
Qed.

Variable nameOf : A -> string.
Variable wfValue : A -> bool.

Lemma wfObjMap_entry (m : JS.ObjMap A) (key : string) (v : A) :
  wfObjMap nameOf wfValue m = true -> In (key, v) m ->
  validName key = true /\ nameOf v = key /\ wfValue v = true /\
  JS.get m key = Some v.
Proof.
  unfold wfObjMap. intros H Hin.
  apply andb_true_iff in H as [D F].
  rewrite forallb_forall in F. specialize (F _ Hin). simpl in F.
  apply andb_true_iff in F as [F Hv]. apply andb_true_iff in F as [Hk Hn].
  apply String.eqb_eq in Hn. repeat split; try assumption.
  now apply get_In_distinct.
Qed.

End ObjMapFacts.

(** ** The loops of the collector *)

Section CollectorLoops.

(** A loop whose body appends a block to the array appends the blocks in
    iteration order. *)
Lemma fold_left_blocks {A B : Type} (step : list B -> A -> list B)
  (block : A -> list B) :
  (forall acc x, step acc x = acc ++ block x) ->
  forall l acc, fold_left step l acc = acc ++ flat_map block l.
Proof.
  intros Hstep l. induction l as [|x l IH]; intros acc; simpl.
  - now rewrite app_nil_r.
  - now rewrite IH, Hstep, <- app_assoc.
Qed.

Lemma flat_map_singleton {A B : Type} (f : A -> B) (l : list A) :
  flat_map (fun x => [f x]) l = map f l.
Proof. induction l as [|x l IH]; simpl; [reflexivity | now rewrite IH]. Qed.

Lemma flat_map_unless {A B : Type} (skip : A -> bool) (block : A -> list B)
  (l : list A) :
  flat_map (fun x => if skip x then [] else block x) l =
  flat_map block (filter (fun x => negb (skip x)) l).
Proof.
  induction l as [|x l IH]; simpl; [reflexivity|].
  destruct (skip x); simpl; now rewrite IH.
Qed.

Lemma collectArguments_app (owner : string)
  (elements : list SearchableElement) (args : list GraphQLArgument) :
  collectArguments owner elements args =
  elements ++ map (argumentRecord owner) args.
Proof.
  unfold collectArguments.
  rewrite (fold_left_blocks _ (fun arg => [argumentRecord owner arg]))
    by reflexivity.
  now rewrite flat_map_singleton.
Qed.

Lemma collectField_app (typeName : string)
  (elements : list SearchableElement) (entry : string * GraphQLField) :
  collectField typeName elements entry = elements ++ fieldBlock typeName entry.
Proof.
  destruct entry as [fieldName field]. unfold collectField, fieldBlock, JS.push.
  rewrite collectArguments_app, <- app_assoc. reflexivity.
Qed.

Lemma collectInputField_app (typeName : string)
  (elements : list SearchableElement) (entry : string * GraphQLInputField) :
  collectInputField typeName elements entry =
  elements ++ [inputFieldRecord typeName (fst entry) (snd entry)].
Proof. now destruct entry. Qed.

Lemma collectType_app (elements : list SearchableElement)
  (entry : string * GraphQLNamedType) :
  collectType elements entry =
  elements ++ (if isMetaEntry entry then [] else typeBlock entry).
Proof.
  destruct entry as [typeName type]. unfold collectType, isMetaEntry, typeBlock.
  cbn [fst snd].
  destruct (JS.startsWith typeName "__"); [now rewrite app_nil_r|].
  unfold JS.push, fieldBlocks.
  destruct type as [n d fields | n d fields | n d types | n d values
                   | n d fields | n d].
  - rewrite (fold_left_blocks _ _ (collectField_app typeName)).
    now rewrite <- app_assoc.
  - rewrite (fold_left_blocks _ _ (collectField_app typeName)).
    now rewrite <- app_assoc.
  - reflexivity.
  - reflexivity.
  - rewrite (fold_left_blocks _ _ (collectInputField_app typeName)).
    now rewrite flat_map_singleton, <- app_assoc.
  - reflexivity.
Qed.

Lemma collectDirective_app (elements : list SearchableElement)
  (directive : GraphQLDirective) :
  collectDirective elements directive = elements ++ directiveBlock directive.
Proof.
  unfold collectDirective, directiveBlock, JS.push.
  now rewrite collectArguments_app, <- app_assoc.
Qed.

(** The loop over the type map appends the blocks of the types that are not
    meta types. *)
Lemma collectType_loop (m : JS.ObjMap GraphQLNamedType)
  (elements : list SearchableElement) :
  fold_left collectType m elements =
  elements ++
  flat_map typeBlock (filter (fun entry => negb (isMetaEntry entry)) m).
Proof.
  rewrite (fold_left_blocks _ _ collectType_app).
  now rewrite flat_map_unless.
Qed.

Lemma collectDirective_loop (ds : list GraphQLDirective)
  (elements : list SearchableElement) :
  fold_left collectDirective ds elements =
  elements ++ flat_map directiveBlock ds.
Proof. apply (fold_left_blocks _ _ collectDirective_app). Qed.

(** Where a collected record comes from: the block of a type that is not a
    meta type, or the block of a directive. *)
Lemma collected_origin (schema : GraphQLSchema) (e : SearchableElement) :
  In e (collectSearchableElements schema) <->
  (exists entry, In entry (typeMap schema) /\ isMetaEntry entry = false /\
                 In e (typeBlock entry)) \/
  (exists directive, In directive (directives schema) /\
                     In e (directiveBlock directive)).
Proof.
  unfold collectSearchableElements.
  rewrite collectDirective_loop, collectType_loop. simpl.
  rewrite in_app_iff, !in_flat_map. split.
  - intros [[entry [Hin He]] | [d H]]; [left | right; now exists d].
    apply filter_In in Hin as [Hin Hm]. apply negb_true_iff in Hm.
    now exists entry.
  - intros [[entry (Hin & Hm & He)] | [d H]]; [left | right; now exists d].
    exists entry. split; [|exact He].
    apply filter_In. split; [exact Hin | now rewrite Hm].
Qed.

End CollectorLoops.

(** ** The three branches of the resolver *)

Section ResolverBranches.

Variable schema : GraphQLSchema.

(** A path without dot is resolved as a directive when it starts with [@]
    and as a type otherwise. *)
Lemma resolve_bare (path : string) :
  countDots path = 0 ->
  getElementDetails path schema =
  if JS.startsWith path "@"
  then option_map directiveDetails (getDirective schema (JS.slice1 path))
  else option_map typeDetails (getType schema path).
Proof.
  intros H. unfold getElementDetails. rewrite (split_dotless path H).
  destruct (JS.startsWith path "@").
  - now destruct (getDirective schema (JS.slice1 path)).
  - now destruct (getType schema path).
Qed.

(** A path with one dot is resolved as a field of an object or interface
    type. *)
Lemma resolve_dotted (typeName fieldName : string) :
  countDots typeName = 0 -> countDots fieldName = 0 ->
  getElementDetails (typeName ^^ "." ^^ fieldName) schema =
  match getType schema typeName with
  | None => None
  | Some type =>
      match objectFields type with
      | None => None
      | Some fields =>
          option_map (fieldDetails typeName) (JS.get fields fieldName)
      end
  end.
Proof.
  intros Ht Hf. unfold getElementDetails.
  rewrite (split_append_dot typeName fieldName Ht), (split_dotless fieldName Hf).
  destruct (getType schema typeName) as [type|]; [|reflexivity].
  destruct (objectFields type) as [fields|]; [|reflexivity].
  now destruct (JS.get fields fieldName).
Qed.

(** A path with two dots or more is not resolved. *)
Lemma resolve_deep (path : string) :
  2 <= countDots path -> getElementDetails path schema = None.
Proof.
  intros H. unfold getElementDetails.
  pose proof (split_length path) as L.
  destruct (JS.split "." path) as [|a [|b [|c l]]]; simpl in L;
    try reflexivity; lia.
Qed.

(** A path with one dot cuts into a type name and a field name. *)
Lemma one_dot_cut (path : string) :
  countDots path = 1 ->
  exists typeName fieldName,
    path = typeName ^^ "." ^^ fieldName /\
    countDots typeName = 0 /\ countDots fieldName = 0.
Proof.
  intros H. destruct (split_parts path) as [[D _] | [[_ (a & b & S)] | [D _]]];
    try lia.
  exists a, b. now apply split_two.
Qed.

Lemma dotted_cut_unique (a b a' b' : string) :
  countDots a = 0 -> countDots b = 0 -> countDots a' = 0 -> countDots b' = 0 ->
  a ^^ "." ^^ b = a' ^^ "." ^^ b' -> a = a' /\ b = b'.
Proof.
  intros Ha Hb Ha' Hb' E.
  assert (S : JS.split "." (a ^^ "." ^^ b) = JS.split "." (a' ^^ "." ^^ b'))
    by now rewrite E.
  rewrite !split_append_dot, !split_dotless in S by assumption.
  now injection S.
Qed.

Lemma countDots_dotted (a b : string) :
  countDots (a ^^ "." ^^ b) = countDots a + 1 + countDots b.
Proof. rewrite !countDots_append. simpl. lia. Qed.

Lemma getDirective_None_iff (directiveName : string) :
  getDirective schema directiveName = None <->
  ~ In directiveName (map dir_name (directives schema)).
Proof.
  unfold getDirective. induction (directives schema) as [|d ds IH]; simpl.
  - tauto.
  - destruct (String.eqb (dir_name d) directiveName) eqn:E.
    + apply String.eqb_eq in E. split; [discriminate | tauto].
    + apply String.eqb_neq in E. rewrite IH. tauto.
Qed.

(** A directive of the graph is found under its name, possibly as an
    earlier directive of the same name. *)
Lemma getDirective_In (directive : GraphQLDirective) :
  In directive (directives schema) ->
  exists found, getDirective schema (dir_name directive) = Some found /\
                dir_name found = dir_name directive.
Proof.
  intros Hin. destruct (getDirective schema (dir_name directive)) as [found|] eqn:G.
  - exists found. split; [reflexivity|].
    unfold getDirective in G. apply find_some in G as [_ E].
    now apply String.eqb_eq in E.
  - apply getDirective_None_iff in G. exfalso. apply G. now apply in_map.
Qed.

(** The fields the resolver reads are those of the object and interface
    types. *)
Lemma objectFields_Some_iff (type : GraphQLNamedType) :
  (exists fields, objectFields type = Some fields) <->
  isObjectOrInterface type.
Proof.
  unfold isObjectOrInterface.
  destruct type; simpl; split; intros H;
    first [ now eauto
          | destruct H as [? H]; discriminate
          | destruct H as [H | H]; discriminate ].
Qed.

Lemma objectFields_names (type : GraphQLNamedType)
  (fields : JS.ObjMap GraphQLField) :
  objectFields type = Some fields -> fieldNames type = JS.keys fields.
Proof. destruct type; simpl; congruence. Qed.

End ResolverBranches.

(** ** The type printer *)

Section TypePrinter.

Lemma Printed_printGraphQLType (R : GraphQLType) :
  Printed R (printGraphQLType R).
Proof.
  induction R as [n | R IH | R IH]; simpl.
  - apply Printed_named.
  - now apply Printed_nonNull.
  - now apply Printed_list.
Qed.

Lemma Printed_unique (R : GraphQLType) (s : string) :
  Printed R s -> s = printGraphQLType R.
Proof.
  induction 1 as [R s _ IH | R s _ IH | n]; simpl; now subst.
Qed.

(** C6. The type printer is total on every finitely wrapped type reference
    and follows the three rules: a non-null wrapper around [R] prints
    [print(R)] followed by ["!"], a list wrapper around [R] prints
    ["[" + print(R) + "]"], and a named type prints its own name unchanged.
    The printed string is the only one that the rules derive. *)
Theorem printGraphQLType_rules :
  (forall R, printGraphQLType (GraphQLNonNull R) = printGraphQLType R ^^ "!") /\
  (forall R,
     printGraphQLType (GraphQLList R) = "[" ^^ printGraphQLType R ^^ "]") /\
  (forall n, printGraphQLType (GraphQLNamed n) = n) /\
  (forall R, exists s, printGraphQLType R = s /\ Printed R s /\
                       forall s', Printed R s' -> s' = s).
Proof.
  repeat split; try reflexivity.
  intros R. exists (printGraphQLType R).
  split; [reflexivity|]. split.
  - apply Printed_printGraphQLType.
  - apply Printed_unique.
Qed.

End TypePrinter.

(** ** The keyword matcher *)

Section ExampleLowerCase.

Lemma whitespace_unit (c : JS.CodeUnit) :
  JS.isWhitespace c = true ->
  N.eqb c capitalSigma = false /\ lowerUnit c = c.
Proof. intros H. split; unit_arith. Qed.

Lemma whitespace_no_case (w : JS.CodeUnit) :
  JS.isWhitespace w = true -> w <> zeroWidthNoBreakSpace ->
  isCased w = false /\ isCaseIgnorable w = false.
Proof. intros H Z. split; unit_arith. Qed.

Lemma lowerUnit_no_whitespace (c : JS.CodeUnit) :
  JS.isWhitespace c = false -> JS.isWhitespace (lowerUnit c) = false.
Proof. intros H. unit_arith. Qed.

Lemma lowerFrom_whitespace (s : JS.Text) (afterCased : bool) :
  allWhitespace s = true -> lowerFrom afterCased s = s.
Proof.
  unfold allWhitespace.
  revert afterCased; induction s as [|c s IH]; intros afterCased; simpl;
    [reflexivity|].
  intros H. apply andb_true_iff in H as [Hc Hs].
  destruct (whitespace_unit c Hc) as [S L]. now rewrite S, L, IH.
Qed.

Lemma lowerFrom_no_whitespace (s : JS.Text) (afterCased : bool) :
  noWhitespace s = true -> noWhitespace (lowerFrom afterCased s) = true.
Proof.
  unfold noWhitespace.
  revert afterCased; induction s as [|c s IH]; intros afterCased; simpl;
    [reflexivity|].
  intros H. apply andb_true_iff in H as [Hc Hs].
  apply negb_true_iff in Hc. rewrite (IH _ Hs), andb_true_r.
  apply negb_true_iff.
  destruct (N.eqb c capitalSigma).
  - now destruct (afterCased && negb (beforeCased s)).
  - now apply lowerUnit_no_whitespace.
Qed.

Lemma beforeCased_cut (x b : JS.Text) (w : JS.CodeUnit) :
  JS.isWhitespace w = true -> w <> zeroWidthNoBreakSpace ->
  beforeCased (x ++ w :: b) = beforeCased x.
Proof.
  intros W Z. destruct (whitespace_no_case w W Z) as [C I].
  induction x as [|c x IH]; simpl.
  - now rewrite I, C.
  - now rewrite IH.
Qed.

Lemma lowerFrom_cut (a b : JS.Text) (w : JS.CodeUnit) (afterCased : bool) :
  JS.isWhitespace w = true -> w <> zeroWidthNoBreakSpace ->
  lowerFrom afterCased (a ++ w :: b) =
  lowerFrom afterCased a ++ w :: lowerFrom false b.
Proof.
  intros W Z. destruct (whitespace_no_case w W Z) as [C I].
  destruct (whitespace_unit w W) as [S L].
  revert afterCased; induction a as [|c a IH]; intros afterCased; simpl.
  - now rewrite S, L, I, C.
  - now rewrite (beforeCased_cut a b w W Z), IH.
Qed.

(** The lowercasing of the examples obeys the laws. *)
Lemma exampleLowerCase_laws : LowerCaseLaws exampleLowerCase.
Proof.
  unfold exampleLowerCase. constructor.
  - intros s. apply lowerFrom_whitespace.
  - intros s. apply lowerFrom_no_whitespace.
  - intros [|c s]; [reflexivity | discriminate].
  - intros a w b. apply lowerFrom_cut.
Qed.

End ExampleLowerCase.

Section KeywordMatcher.

Variable toLowerCase : JS.Text -> JS.Text.
Hypothesis lowerCaseLaws : LowerCaseLaws toLowerCase.

Lemma specText_searchableText (e : SearchableElement) :
  specText toLowerCase e = searchableText toLowerCase e.
Proof. reflexivity. Qed.

(** With a keyword at least, the search is the filter. *)
Lemma search_with_keywords (elements : list SearchableElement)
  (query : JS.Text) :
  keywordsOf toLowerCase query <> [] ->
  searchSchemaElements toLowerCase elements query =
  filter (matchesAll toLowerCase (keywordsOf toLowerCase query)) elements.
Proof.
  unfold searchSchemaElements. intros H.
  destruct (keywordsOf toLowerCase query) as [|k ks];
    [congruence | reflexivity].
Qed.

(** Without keyword, the search returns nothing. *)
Lemma search_without_keywords (elements : list SearchableElement)
  (query : JS.Text) :
  keywordsOf toLowerCase query = [] ->
  searchSchemaElements toLowerCase elements query = [].
Proof. unfold searchSchemaElements. now intros ->. Qed.



(** C7. A query that is empty or made of whitespace only has no keyword,
    and the search returns the empty list for it, which is not the input
    list unless that is empty too. *)
Theorem search_blank_query (elements : list SearchableElement)
  (query : JS.Text) :
  allWhitespace query = true ->
  keywordsOf toLowerCase query = [] /\
  searchSchemaElements toLowerCase elements query = [] /\
  (elements <> [] ->
   searchSchemaElements toLowerCase elements query <> elements).
Proof.
  intros H. apply (keywordsOf_blank toLowerCase lowerCaseLaws) in H.
  rewrite (search_without_keywords elements query H).
  repeat split; [exact H | congruence].
Qed.


End KeywordMatcher.



(** C7 at a query made of a no-break space, an ideographic space, a space,
    a line separator and U+FEFF. *)
Lemma search_blank_query_witness :
  allWhitespace blankQuery = true /\
  searchSchemaElements exampleLowerCase
    (collectSearchableElements userSchema) blankQuery = [].
Proof.
  assert (B : allWhitespace blankQuery = true) by reflexivity.
  split; [exact B|].
  exact (proj1 (proj2 (search_blank_query exampleLowerCase
                         exampleLowerCase_laws
                         (collectSearchableElements userSchema)
                         blankQuery B))).
Defined.



(** ** The element collector *)

Section ElementCollector.

(** C4. The collected list is, for each type of the type map in iteration
    order, the meta types skipped, the type record followed by, for each of
    its fields, the field record and then one argument record per argument
    of the field in order; after all types come, for each directive, the
    directive record and then one argument record per argument of the
    directive in order. *)
Theorem collect_insertion_order (schema : GraphQLSchema) :
  collectSearchableElements schema = specOrder schema.
Proof.
  unfold collectSearchableElements, specOrder, nonMetaTypes.
  rewrite collectDirective_loop, collectType_loop.
  reflexivity.
Qed.

(** The path of every record of a type's block starts with the name of the
    type, followed by a dot when the record is not the type's own. *)
Lemma typeBlock_path (entry : string * GraphQLNamedType)
  (e : SearchableElement) :
  In e (typeBlock entry) ->
  path e = fst entry \/ exists rest, path e = fst entry ^^ "." ^^ rest.
Proof.
  destruct entry as [typeName type]. unfold typeBlock. cbn [fst snd].
  intros [<- | H]; [now left | right].
  assert (F : forall fields : JS.ObjMap GraphQLField,
             In e (flat_map (fieldBlock typeName) fields) ->
             exists rest, path e = typeName ^^ "." ^^ rest).
  { intros fields Hin. apply in_flat_map in Hin as [[fieldName field] [_ Hin]].
    unfold fieldBlock in Hin. cbn [fst snd] in Hin.
    destruct Hin as [<- | Hin].
    - now exists fieldName.
    - apply in_map_iff in Hin as [arg [<- _]].
      exists (fieldName ^^ "(" ^^ arg_name arg ^^ ")").
      cbn [path argumentRecord]. now rewrite !append_assoc. }
  destruct type as [n d fields | n d fields | n d types | n d values
                   | n d fields | n d]; simpl in H; try contradiction.
  - now apply (F fields).
  - now apply (F fields).
  - apply in_map_iff in H as [[fieldName field] [<- _]].
    now exists fieldName.
Qed.

Lemma not_meta_dotted (typeName rest : string) :
  JS.startsWith typeName "__" = false ->
  JS.startsWith (typeName ^^ "." ^^ rest) "__" = false.
Proof.
  destruct typeName as [|c [|c' typeName]]; simpl.
  - reflexivity.
  - intros _. now rewrite andb_false_r.
  - intros H. exact H.
Qed.

Lemma directiveBlock_path (directive : GraphQLDirective)
  (e : SearchableElement) :
  In e (directiveBlock directive) -> exists rest, path e = "@" ^^ rest.
Proof.
  unfold directiveBlock. intros [<- | H].
  - now exists (dir_name directive).
  - apply in_map_iff in H as [arg [<- _]].
    exists (dir_name directive ^^ "(" ^^ arg_name arg ^^ ")").
    cbn [path argumentRecord]. now rewrite append_assoc.
Qed.

Lemma filter_twice {A : Type} (keep : A -> bool) (l : list A) :
  filter keep (filter keep l) = filter keep l.
Proof.
  induction l as [|x l IH]; simpl; [reflexivity|].
  destruct (keep x) eqn:E; simpl; [now rewrite E, IH | exact IH].
Qed.

(** No collected path starts with the prefix of the meta types. *)
Lemma collected_path_not_meta (schema : GraphQLSchema)
  (e : SearchableElement) :
  In e (collectSearchableElements schema) ->
  JS.startsWith (path e) "__" = false.
Proof.
  intros H. apply collected_origin in H
    as [[entry (_ & Hm & He)] | [directive [_ He]]].
  - unfold isMetaEntry in Hm.
    apply typeBlock_path in He as [-> | [rest ->]]; [exact Hm|].
    now apply not_meta_dotted.
  - apply directiveBlock_path in He as [rest ->]. reflexivity.
Qed.

(** C5. Every collected record comes from the block of a type whose name
    does not start with the double underscore, or from the block of a
    directive; no collected path starts with the double underscore; and the
    collected list is the one of the graph without its meta types. *)
Theorem collect_skips_meta_types (schema : GraphQLSchema) :
  (forall e, In e (collectSearchableElements schema) ->
     (exists entry, In entry (typeMap schema) /\
                    JS.startsWith (fst entry) "__" = false /\
                    In e (typeBlock entry)) \/
     (exists directive, In directive (directives schema) /\
                        In e (directiveBlock directive))) /\
  (forall e, In e (collectSearchableElements schema) ->
     JS.startsWith (path e) "__" = false) /\
  collectSearchableElements schema =
  collectSearchableElements
    {| typeMap := nonMetaTypes schema; directives := directives schema |}.
Proof.
  split; [|split].
  - intros e H. now apply collected_origin in H.
  - intros e. apply collected_path_not_meta.
  - unfold collectSearchableElements, nonMetaTypes. simpl.
    rewrite !collectDirective_loop, !collectType_loop.
    now rewrite filter_twice.
Qed.

End ElementCollector.

(** ** The path resolver *)

Section PathResolver.

Variable schema : GraphQLSchema.

(** C3. The resolver is a total function: it returns a detail record or
    the not-found value, and the not-found value exactly for the paths that
    match no element under the grammar of three shapes: two dots or more; [@name] without dot where no directive is
    called [name]; a bare name without dot that is not in the type map;
    [TypeName.fieldName] where the type is absent, is neither an object nor
    an interface type, or has no field of that name. *)
Theorem resolve_not_found_iff (path : string) :
  (getElementDetails path schema = None <-> specNotFound path schema) /\
  (~ specNotFound path schema ->
   exists d, getElementDetails path schema = Some d).
Proof.
  assert (Iff : getElementDetails path schema = None <->
                specNotFound path schema); [|split; [exact Iff|]].
  2: { intros Found. destruct (getElementDetails path schema) as [d|] eqn:R.
       - now exists d.
       - exfalso. apply Found. now apply Iff. }
  unfold specNotFound.
  destruct (split_parts path) as [[D _] | [[D (a & b & S)] | [D _]]].
  - rewrite (resolve_bare schema path D).
    destruct (JS.startsWith path "@") eqn:E.
    + rewrite <- getDirective_None_iff. split.
      * intros H. right; left. repeat split; try assumption.
        now destruct (getDirective schema (JS.slice1 path)).
      * intros [H | [(_ & _ & H) | [(_ & E' & _) | (tn & fn & -> & _)]]].
        -- lia.
        -- now rewrite H.
        -- congruence.
        -- rewrite countDots_dotted in D. lia.
    + unfold getType. rewrite <- get_None_iff. split.
      * intros H. right; right; left. repeat split; try assumption.
        now destruct (JS.get (typeMap schema) path).
      * intros [H | [(_ & E' & _) | [(_ & _ & H) | (tn & fn & -> & _)]]].
        -- lia.
        -- congruence.
        -- now rewrite H.
        -- rewrite countDots_dotted in D. lia.
  - apply split_two in S as (-> & Ha & Hb).
    rewrite (resolve_dotted schema a b Ha Hb). unfold getType. split.
    + intros H. do 3 right. exists a, b. repeat split; try assumption.
      destruct (JS.get (typeMap schema) a) as [type|] eqn:G.
      * right. exists type. split; [reflexivity|].
        destruct (objectFields type) as [fields|] eqn:O.
        -- right. rewrite (objectFields_names type fields O). apply get_None_iff.
           now destruct (JS.get fields b).
        -- left. intros K. apply objectFields_Some_iff in K as [fields K].
           congruence.
      * left. now apply get_None_iff.
    + intros [H | [(D' & _) | [(D' & _) | (tn & fn & E & Htn & Hfn & H)]]];
        try (rewrite countDots_dotted in *; lia).
      apply dotted_cut_unique in E as [<- <-]; try assumption.
      destruct H as [H | (type & G & K)].
      * apply get_None_iff in H. now rewrite H.
      * rewrite G. destruct (objectFields type) as [fields|] eqn:O;
          [|reflexivity].
        destruct K as [K | K].
        -- exfalso. apply K. apply objectFields_Some_iff. now exists fields.
        -- rewrite (objectFields_names type fields O) in K.
           apply get_None_iff in K. now rewrite K.
  - rewrite (resolve_deep schema path D). split; [now left | reflexivity].
Qed.

Lemma startsWith_dotted_head (typeName fieldName : string) :
  JS.startsWith (typeName ^^ "." ^^ fieldName) "@" = true ->
  JS.startsWith typeName "@" = true.
Proof.
  destruct typeName as [|c typeName]; simpl; [discriminate | tauto].
Qed.

(** C9. The resolver counts the dots before it looks for a leading [@]: a
    path with a dot at least is never resolved as a directive; a path with
    one dot is looked up as a field of the type named by the part before the
    dot, a name that starts with [@] when the path does, so that such a path
    is not found whenever no name of the type map starts with [@]. *)
Theorem resolve_counts_dots_first (path : string) :
  1 <= countDots path ->
  (forall d, getElementDetails path schema = Some d ->
             d_elementType d <> directive_element) /\
  (countDots path = 1 ->
   exists typeName fieldName,
     path = typeName ^^ "." ^^ fieldName /\
     getElementDetails path schema =
       match getType schema typeName with
       | None => None
       | Some type =>
           match objectFields type with
           | None => None
           | Some fields =>
               option_map (fieldDetails typeName) (JS.get fields fieldName)
           end
       end /\
     (JS.startsWith path "@" = true ->
      JS.startsWith typeName "@" = true /\
      ((forall key, In key (JS.keys (typeMap schema)) ->
                    JS.startsWith key "@" = false) ->
       getElementDetails path schema = None))).
Proof.
  intros D.
  assert (Cut : countDots path = 1 ->
                exists typeName fieldName,
                  path = typeName ^^ "." ^^ fieldName /\
                  getElementDetails path schema =
                    match getType schema typeName with
                    | None => None
                    | Some type =>
                        match objectFields type with
                        | None => None
                        | Some fields =>
                            option_map (fieldDetails typeName)
                                       (JS.get fields fieldName)
                        end
                    end).
  { intros D1. destruct (one_dot_cut path D1) as (a & b & -> & Ha & Hb).
    exists a, b. split; [reflexivity | now apply resolve_dotted]. }
  split.
  - intros d H.
    destruct (Nat.eq_dec (countDots path) 1) as [D1 | D1].
    + destruct (Cut D1) as (a & b & _ & R). rewrite R in H.
      destruct (getType schema a) as [type|]; [|discriminate].
      destruct (objectFields type) as [fields|]; [|discriminate].
      destruct (JS.get fields b) as [field|]; [|discriminate].
      injection H as <-. discriminate.
    + rewrite resolve_deep in H by lia. discriminate.
  - intros D1. destruct (Cut D1) as (a & b & -> & R).
    exists a, b. split; [reflexivity|]. split; [exact R|].
    intros At. apply (startsWith_dotted_head a b) in At.
    split; [exact At|]. intros NoAt. rewrite R. unfold getType.
    destruct (JS.get (typeMap schema) a) as [type|] eqn:G; [|reflexivity].
    apply get_Some_In in G. apply (in_map fst) in G. apply NoAt in G.
    cbn [fst] in G. congruence.
Qed.

(** C10. The resolver has no filter on meta types: a type of the type map
    whose name starts with the double underscore is resolved under its bare
    name to its detail record, although no collected record has a path that
    starts with that name. *)
Theorem resolve_meta_type (typeName : string) (type : GraphQLNamedType) :
  wfSchema schema = true ->
  In (typeName, type) (typeMap schema) ->
  JS.startsWith typeName "__" = true ->
  getElementDetails typeName schema = Some (typeDetails type) /\
  d_elementType (typeDetails type) = type_element /\
  d_name (typeDetails type) = typeName /\
  d_kind (typeDetails type) = Some (typeKindOf type) /\
  (forall e, In e (collectSearchableElements schema) ->
             JS.startsWith (path e) typeName = false).
Proof.
  intros W Hin Meta. apply andb_true_iff in W as [W _].
  destruct (wfObjMap_entry type_name wfType _ _ _ W Hin)
    as (V & N & _ & G).
  repeat split.
  - rewrite (resolve_bare schema typeName (validName_dotless typeName V)).
    rewrite (validName_not_directive typeName V).
    unfold getType. now rewrite G.
  - now destruct type.
  - rewrite <- N. now destruct type.
  - now destruct type.
  - intros e He.
    destruct (JS.startsWith (path e) typeName) eqn:S; [|reflexivity].
    pose proof (startsWith_trans _ _ _ S Meta) as T.
    rewrite (collected_path_not_meta schema e He) in T. discriminate.
Qed.

End PathResolver.

(** C9 at a path that starts with [@] and has a dot. *)
Lemma resolve_counts_dots_first_witness :
  1 <= countDots "@deprecated.reason" /\
  forall d, getElementDetails "@deprecated.reason" sampleSchema = Some d ->
            d_elementType d <> directive_element.
Proof.
  split; [vm_compute; lia|].
  apply (resolve_counts_dots_first sampleSchema "@deprecated.reason").
  vm_compute. lia.
Defined.

(** C10 at the meta type [__Schema] of the sample graph. *)
Lemma resolve_meta_type_witness :
  wfSchema sampleSchema = true /\
  In ("__Schema", metaSchemaType) (typeMap sampleSchema) /\
  JS.startsWith "__Schema" "__" = true /\
  getElementDetails "__Schema" sampleSchema =
  Some (typeDetails metaSchemaType).
Proof.
  assert (W : wfSchema sampleSchema = true) by reflexivity.
  assert (I : In ("__Schema", metaSchemaType) (typeMap sampleSchema))
    by (simpl; tauto).
  assert (M : JS.startsWith "__Schema" "__" = true) by reflexivity.
  split; [exact W|]. split; [exact I|]. split; [exact M|].
  exact (proj1 (resolve_meta_type sampleSchema "__Schema" metaSchemaType
                  W I M)).
Defined.

(** ** Collected paths through the resolver *)

Section RoundTrip.

Variable schema : GraphQLSchema.
Hypothesis wellFormed : wfSchema schema = true.

Lemma wf_typeMap : wfObjMap type_name wfType (typeMap schema) = true.
Proof. now apply andb_true_iff in wellFormed as [W _]. Qed.

Lemma wf_directive (directive : GraphQLDirective) :
  In directive (directives schema) ->
  validName (dir_name directive) = true /\
  wfArgs (dir_args directive) = true.
Proof.
  intros Hin. apply andb_true_iff in wellFormed as [_ W].
  rewrite forallb_forall in W. apply W in Hin.
  now apply andb_true_iff in Hin.
Qed.

Lemma wf_objectFields (type : GraphQLNamedType)
  (fields : JS.ObjMap GraphQLField) :
  wfType type = true -> objectFields type = Some fields ->
  wfObjMap field_name (fun field => wfArgs (field_args field)) fields = true.
Proof. destruct type; simpl; congruence. Qed.

(** The record of a type resolves to the details of that type. *)
Lemma type_path_resolves (typeName : string) (type : GraphQLNamedType) :
  In (typeName, type) (typeMap schema) ->
  getElementDetails typeName schema = Some (typeDetails type) /\
  type_name type = typeName.
Proof.
  intros Hin.
  destruct (wfObjMap_entry type_name wfType _ _ _ wf_typeMap Hin)
    as (V & N & _ & G).
  split; [|exact N].
  rewrite (resolve_bare schema typeName (validName_dotless typeName V)).
  rewrite (validName_not_directive typeName V).
  unfold getType. now rewrite G.
Qed.

(** The record of a field of an object or interface type resolves to the
    details of that field. *)
Lemma field_path_resolves (typeName fieldName : string)
  (type : GraphQLNamedType) (fields : JS.ObjMap GraphQLField)
  (field : GraphQLField) :
  In (typeName, type) (typeMap schema) ->
  objectFields type = Some fields ->
  In (fieldName, field) fields ->
  getElementDetails (typeName ^^ "." ^^ fieldName) schema =
  Some (fieldDetails typeName field) /\
  field_name field = fieldName.
Proof.
  intros Hin O Hf.
  destruct (wfObjMap_entry type_name wfType _ _ _ wf_typeMap Hin)
    as (V & _ & Wt & G).
  pose proof (wf_objectFields type fields Wt O) as Wf.
  destruct (wfObjMap_entry field_name _ _ _ _ Wf Hf) as (Vf & N & _ & Gf).
  split; [|exact N].
  rewrite (resolve_dotted schema typeName fieldName
             (validName_dotless typeName V) (validName_dotless fieldName Vf)).
  unfold getType. now rewrite G, O, Gf.
Qed.

(** The record of a directive resolves to the details of the first
    directive of that name. *)
Lemma directive_path_resolves (directive : GraphQLDirective) :
  In directive (directives schema) ->
  exists found,
    getElementDetails ("@" ^^ dir_name directive) schema =
    Some (directiveDetails found) /\
    dir_name found = dir_name directive.
Proof.
  intros Hin. destruct (wf_directive directive Hin) as [V _].
  destruct (getDirective_In schema directive Hin) as (found & G & N).
  exists found. split; [|exact N].
  rewrite resolve_bare.
  - cbn [JS.startsWith append JS.slice1].
    rewrite Ascii.eqb_refl. cbn [andb]. now rewrite G.
  - rewrite countDots_append. now rewrite (validName_dotless _ V).
Qed.

(** C1, amended. In a well-formed graph, the path of every collected record
    of a type, of a directive or of a field of an object or interface type
    (the field records that carry a return type) resolves to a detail
    record, not to the not-found value, and that record has the name of the
    element, its element type and, for a type, its kind. *)
Theorem collected_path_resolves (e : SearchableElement) :
  In e (collectSearchableElements schema) ->
  addressable e = true ->
  exists d, getElementDetails (path e) schema = Some d /\ describes d e.
Proof.
  intros Hin Addr. apply collected_origin in Hin
    as [[[typeName type] (Hin & _ & He)] | [directive [Hin He]]].
  - destruct He as [<- | He].
    + destruct (type_path_resolves typeName type Hin) as [R N].
      exists (typeDetails type). split; [exact R|].
      unfold describes. cbn [name elementType typeKind typeRecord].
      rewrite <- N. now destruct type.
    + cbn [fst snd] in He.
      assert (F : forall fields, objectFields type = Some fields ->
                  In e (flat_map (fieldBlock typeName) fields) ->
                  exists d, getElementDetails (path e) schema = Some d /\
                            describes d e).
      { intros fields O Hb.
        apply in_flat_map in Hb as [[fieldName field] [Hf Hb]].
        destruct Hb as [<- | Hb].
        - destruct (field_path_resolves typeName fieldName type fields field
                      Hin O Hf) as [R N].
          exists (fieldDetails typeName field). split; [exact R|].
          unfold describes. cbn.
          split; [exact N | split; [reflexivity | discriminate]].
        - apply in_map_iff in Hb as [arg [<- _]]. discriminate Addr. }
      destruct type as [n d fields | n d fields | n d types | n d values
                       | n d fields | n d]; simpl in He; try contradiction.
      * now apply (F fields).
      * now apply (F fields).
      * apply in_map_iff in He as [[fieldName field] [<- _]].
        discriminate Addr.
  - destruct He as [<- | He].
    + destruct (directive_path_resolves directive Hin) as (found & R & N).
      exists (directiveDetails found). split; [exact R|].
      unfold describes. cbn.
          split; [exact N | split; [reflexivity | discriminate]].
    + apply in_map_iff in He as [arg [<- _]]. discriminate Addr.
Qed.

Lemma wf_inputFields (n : string) (d : option JS.Text)
  (fields : JS.ObjMap GraphQLInputField) :
  wfType (GraphQLInputObjectType n d fields) = true ->
  wfObjMap ifield_name (fun _ => true) fields = true.
Proof. simpl. tauto. Qed.

Lemma wfArgs_dotless (args : list GraphQLArgument) (arg : GraphQLArgument) :
  wfArgs args = true -> In arg args -> countDots (arg_name arg) = 0.
Proof.
  unfold wfArgs. rewrite forallb_forall. intros W Hin.
  apply validName_dotless. now apply W.
Qed.

Lemma argument_suffix_dotless (owner argName : string) :
  countDots owner = 0 -> countDots argName = 0 ->
  countDots (owner ^^ "(" ^^ argName ^^ ")") = 0.
Proof. intros Ho Ha. rewrite !countDots_append, Ho, Ha. reflexivity. Qed.

(** The path of an argument of a field is read as a field whose name holds
    a parenthesis, and no field has such a name. *)
Lemma field_argument_path_unresolved (typeName fieldName : string)
  (type : GraphQLNamedType) (fields : JS.ObjMap GraphQLField)
  (field : GraphQLField) (arg : GraphQLArgument) :
  In (typeName, type) (typeMap schema) ->
  objectFields type = Some fields ->
  In (fieldName, field) fields ->
  In arg (field_args field) ->
  getElementDetails (path (argumentRecord (typeName ^^ "." ^^ fieldName) arg))
    schema = None.
Proof.
  intros Hin O Hf Ha.
  destruct (wfObjMap_entry type_name wfType _ _ _ wf_typeMap Hin)
    as (V & _ & Wt & G).
  pose proof (wf_objectFields type fields Wt O) as Wf.
  destruct (wfObjMap_entry field_name _ _ _ _ Wf Hf) as (Vf & _ & Wa & _).
  cbn [path argumentRecord]. rewrite !append_assoc.
  rewrite resolve_dotted.
  - unfold getType. rewrite G, O.
    destruct (JS.get fields (fieldName ^^ "(" ^^ arg_name arg ^^ ")"))
      as [other|] eqn:Go; [|reflexivity].
    apply get_Some_In in Go.
    destruct (wfObjMap_entry field_name _ _ _ _ Wf Go) as (Vo & _).
    now rewrite validName_no_parenthesis in Vo.
  - now apply validName_dotless.
  - apply argument_suffix_dotless; [now apply validName_dotless|].
    now apply (wfArgs_dotless (field_args field)).
Qed.

(** The path of a field of an input object names a type that the field
    branch of the resolver rejects. *)
Lemma input_field_path_unresolved (typeName fieldName n : string)
  (d : option JS.Text) (fields : JS.ObjMap GraphQLInputField)
  (field : GraphQLInputField) :
  In (typeName, GraphQLInputObjectType n d fields) (typeMap schema) ->
  In (fieldName, field) fields ->
  getElementDetails (path (inputFieldRecord typeName fieldName field))
    schema = None.
Proof.
  intros Hin Hf.
  destruct (wfObjMap_entry type_name wfType _ _ _ wf_typeMap Hin)
    as (V & _ & Wt & G).
  pose proof (wf_inputFields n d fields Wt) as Wf.
  destruct (wfObjMap_entry ifield_name _ _ _ _ Wf Hf) as (Vf & _).
  cbn [path inputFieldRecord].
  rewrite (resolve_dotted schema typeName fieldName
             (validName_dotless typeName V) (validName_dotless fieldName Vf)).
  unfold getType. now rewrite G.
Qed.

(** The path of an argument of a directive is read as a directive whose
    name holds a parenthesis, and no directive has such a name. *)
Lemma directive_argument_path_unresolved (directive : GraphQLDirective)
  (arg : GraphQLArgument) :
  In directive (directives schema) ->
  In arg (dir_args directive) ->
  getElementDetails (path (argumentRecord ("@" ^^ dir_name directive) arg))
    schema = None.
Proof.
  intros Hin Ha. destruct (wf_directive directive Hin) as [V Wa].
  change (path (argumentRecord ("@" ^^ dir_name directive) arg))
    with (String "@" (dir_name directive ^^ "(" ^^ arg_name arg ^^ ")")).
  rewrite resolve_bare.
  - change (JS.startsWith (String "@" ?s) "@") with true.
    cbn [JS.slice1].
    destruct (getDirective schema
                (dir_name directive ^^ "(" ^^ arg_name arg ^^ ")"))
      as [found|] eqn:G; [|reflexivity].
    unfold getDirective in G. apply find_some in G as [Hf E].
    apply String.eqb_eq in E. destruct (wf_directive found Hf) as [Vf _].
    now rewrite E, validName_no_parenthesis in Vf.
  - cbn [countDots]. rewrite argument_suffix_dotless; [reflexivity | |].
    + now apply validName_dotless.
    + now apply (wfArgs_dotless (dir_args directive)).
Qed.

(** The other collected paths, those of the arguments and of the fields of
    the input objects, resolve to nothing: the resolver addresses types,
    fields of object and interface types, and directives only. *)
Lemma collected_path_unresolved (e : SearchableElement) :
  In e (collectSearchableElements schema) ->
  addressable e = false ->
  getElementDetails (path e) schema = None.
Proof.
  intros Hin Addr. apply collected_origin in Hin
    as [[[typeName type] (Hin & _ & He)] | [directive [Hin He]]].
  - destruct He as [<- | He]; [discriminate Addr|].
    cbn [fst snd] in He.
    assert (F : forall fields, objectFields type = Some fields ->
                In e (flat_map (fieldBlock typeName) fields) ->
                getElementDetails (path e) schema = None).
    { intros fields O Hb.
      apply in_flat_map in Hb as [[fieldName field] [Hf Hb]].
      destruct Hb as [<- | Hb]; [discriminate Addr|].
      apply in_map_iff in Hb as [arg [<- Ha]].
      now apply (field_argument_path_unresolved typeName fieldName type
                   fields field arg). }
    destruct type as [n d fields | n d fields | n d types | n d values
                     | n d fields | n d]; simpl in He; try contradiction.
    + now apply (F fields).
    + now apply (F fields).
    + apply in_map_iff in He as [[fieldName field] [<- Hf]].
      now apply (input_field_path_unresolved typeName fieldName n d fields).
  - destruct He as [<- | He]; [discriminate Addr|].
    apply in_map_iff in He as [arg [<- Ha]].
    now apply directive_argument_path_unresolved.
Qed.

End RoundTrip.

(** C1 at the record of the field [User.id] of the sample graph. *)
Lemma collected_path_resolves_witness :
  wfSchema sampleSchema = true /\
  In userIdField (collectSearchableElements sampleSchema) /\
  addressable userIdField = true /\
  exists d, getElementDetails (path userIdField) sampleSchema = Some d /\
            describes d userIdField.
Proof.
  assert (W : wfSchema sampleSchema = true) by reflexivity.
  assert (I : In userIdField (collectSearchableElements sampleSchema))
    by (vm_compute; tauto).
  assert (A : addressable userIdField = true) by reflexivity.
  split; [exact W|]. split; [exact I|]. split; [exact A|].
  exact (collected_path_resolves sampleSchema W userIdField I A).
Defined.

(** The claim C1 as it is stated fails on a well-formed graph: the path of
    an argument record and the path of a field record of an input object
    are collected and resolve to nothing. *)
Lemma collected_path_unresolved_example :
  wfSchema sampleSchema = true /\
  In userIdArgument (collectSearchableElements sampleSchema) /\
  getElementDetails (path userIdArgument) sampleSchema = None /\
  In activeInputField (collectSearchableElements sampleSchema) /\
  getElementDetails (path activeInputField) sampleSchema = None.
Proof.
  repeat split; try reflexivity; vm_compute; tauto.
Qed.

(** ** The scenarios of the specification *)

Section Scenarios.

(** Collecting [User { id: ID!, name: String }] gives three records: the
    type and its two fields, with their printed return types. *)
Example scenario_user_collect :
  map (fun e => (elementType e, path e, typeKind e, returnType e))
      (collectSearchableElements userSchema) =
  [(type_element, "User", Some "OBJECT", None);
   (field_element, "User.id", None, Some "ID!");
   (field_element, "User.name", None, Some "String")].
Proof. reflexivity. Qed.

(** Searching that list for [id] keeps the record of [User.id] only. *)
Example scenario_user_search :
  map path (searchSchemaElements exampleLowerCase
              (collectSearchableElements userSchema) (JS.unitsOf "id")) =
  ["User.id"].
Proof. reflexivity. Qed.

(** [User] resolves to an object with two fields, [User.id] to a field of
    type [ID!], and [Nonexistent] to nothing. *)
Example scenario_user_resolve :
  option_map (fun d => (d_kind d, option_map (@length _) (d_fields d)))
             (getElementDetails "User" userSchema) =
  Some (Some "OBJECT", Some 2) /\
  option_map d_type (getElementDetails "User.id" userSchema) =
  Some (Some "ID!") /\
  getElementDetails "Nonexistent" userSchema = None.
Proof. repeat split. Qed.

(** The directive [@deprecated(reason: String)] is collected as a directive
    record and an argument record, and resolves to details that list the
    argument [reason]. *)
Example scenario_deprecated :
  map (fun e => (elementType e, path e))
      (collectSearchableElements deprecatedSchema) =
  [(directive_element, "@deprecated");
   (argument_element, "@deprecated(reason)")] /\
  option_map (fun d => option_map (map ai_name) (d_args d))
             (getElementDetails "@deprecated" deprecatedSchema) =
  Some (Some ["reason"]).
Proof. split; reflexivity. Qed.

(** The meta type [__Schema] of the sample graph gives no record. *)
Example scenario_meta_type :
  In ("__Schema", metaSchemaType) (typeMap sampleSchema) /\
  filter (fun e => JS.includes (path e) "__Schema")
         (collectSearchableElements sampleSchema) = [].
Proof. split; [simpl; tauto | reflexivity]. Qed.

(** The search does not depend on the case of the query. *)
Lemma search_case_insensitive (toLowerCase : JS.Text -> JS.Text)
  (elements : list SearchableElement) (query1 query2 : JS.Text) :
  toLowerCase query1 = toLowerCase query2 ->
  searchSchemaElements toLowerCase elements query1 =
  searchSchemaElements toLowerCase elements query2.
Proof.
  unfold searchSchemaElements, keywordsOf. now intros ->.
Qed.

Example scenario_case :
  searchSchemaElements exampleLowerCase
    (collectSearchableElements sampleSchema) (JS.unitsOf "USER") =
  searchSchemaElements exampleLowerCase
    (collectSearchableElements sampleSchema) (JS.unitsOf "user").
Proof. now apply search_case_insensitive. Qed.

End Scenarios.

(** * Further properties *)

(** ** The resolver against the collector *)

Section ResolverAgainstCollector.

Variable schema : GraphQLSchema.
Hypothesis wellFormed : wfSchema schema = true.

Lemma startsWith_at_slice (p : string) :
  JS.startsWith p "@" = true -> p = "@" ^^ JS.slice1 p.
Proof.
  destruct p as [|c p]; cbn [JS.startsWith JS.slice1 append];
    [discriminate|].
  rewrite andb_true_r, Ascii.eqb_eq. now intros <-.
Qed.

Lemma objectFields_block (typeName : string) (type : GraphQLNamedType)
  (fields : JS.ObjMap GraphQLField) :
  objectFields type = Some fields ->
  fieldBlocks typeName type = flat_map (fieldBlock typeName) fields.
Proof. destruct type; simpl; congruence. Qed.

Lemma typeRecord_collected (typeName : string) (type : GraphQLNamedType) :
  In (typeName, type) (typeMap schema) ->
  JS.startsWith typeName "__" = false ->
  In (typeRecord typeName type) (collectSearchableElements schema).
Proof.
  intros Hin Meta. apply collected_origin. left.
  exists (typeName, type). repeat split; try assumption. now left.
Qed.

Lemma fieldRecord_collected (typeName fieldName : string)
  (type : GraphQLNamedType) (fields : JS.ObjMap GraphQLField)
  (field : GraphQLField) :
  In (typeName, type) (typeMap schema) ->
  JS.startsWith typeName "__" = false ->
  objectFields type = Some fields ->
  In (fieldName, field) fields ->
  In (fieldRecord typeName fieldName field)
     (collectSearchableElements schema).
Proof.
  intros Hin Meta O Hf. apply collected_origin. left.
  exists (typeName, type). repeat split; try assumption.
  right. cbn [fst snd]. rewrite (objectFields_block typeName type fields O).
  apply in_flat_map. exists (fieldName, field). split; [exact Hf | now left].
Qed.

Lemma directiveRecord_collected (directive : GraphQLDirective) :
  In directive (directives schema) ->
  In (directiveRecord directive) (collectSearchableElements schema).
Proof.
  intros Hin. apply collected_origin. right.
  exists directive. split; [exact Hin | now left].
Qed.

Lemma not_meta_head (typeName rest : string) :
  JS.startsWith (typeName ^^ rest) "__" = false ->
  JS.startsWith typeName "__" = false.
Proof.
  intros H. destruct (JS.startsWith typeName "__") eqn:M; [|reflexivity].
  rewrite (startsWith_trans _ _ _ (startsWith_append typeName rest) M) in H.
  discriminate.
Qed.

(** X1. In a well-formed graph every path that the resolver resolves and
    that does not start with the double underscore is the path of a
    collected record of a type, of a directive or of a field with a return
    type, and the detail record describes that record. *)
Theorem resolved_path_collected (p : string) (d : ElementDetails) :
  getElementDetails p schema = Some d ->
  JS.startsWith p "__" = false ->
  exists e, In e (collectSearchableElements schema) /\
            path e = p /\ addressable e = true /\ describes d e.
Proof.
  intros R Meta.
  destruct (split_parts p) as [[D _] | [[D (a & b & S)] | [D _]]].
  - rewrite (resolve_bare schema p D) in R.
    destruct (JS.startsWith p "@") eqn:At.
    + destruct (getDirective schema (JS.slice1 p)) as [found|] eqn:G;
        [|discriminate].
      injection R as <-. unfold getDirective in G.
      apply find_some in G as [Hin E]. apply String.eqb_eq in E.
      exists (directiveRecord found). split; [|split; [|split]].
      * now apply directiveRecord_collected.
      * cbn [path directiveRecord]. rewrite E.
        symmetry. now apply startsWith_at_slice.
      * reflexivity.
      * unfold describes. cbn.
        split; [reflexivity | split; [reflexivity | discriminate]].
    + destruct (getType schema p) as [type|] eqn:G; [|discriminate].
      injection R as <-. apply get_Some_In in G.
      destruct (type_path_resolves schema wellFormed p type G) as [_ N].
      exists (typeRecord p type). split; [|split; [|split]].
      * now apply typeRecord_collected.
      * reflexivity.
      * reflexivity.
      * unfold describes. cbn [name elementType typeKind typeRecord].
        rewrite <- N. now destruct type.
  - apply split_two in S as (-> & Ha & Hb).
    rewrite (resolve_dotted schema a b Ha Hb) in R.
    destruct (getType schema a) as [type|] eqn:G; [|discriminate].
    destruct (objectFields type) as [fields|] eqn:O; [|discriminate].
    destruct (JS.get fields b) as [field|] eqn:Gf; [|discriminate].
    injection R as <-. apply get_Some_In in G. apply get_Some_In in Gf.
    destruct (field_path_resolves schema wellFormed a b type fields field
                G O Gf) as [_ N].
    exists (fieldRecord a b field). split; [|split; [|split]].
    + apply (fieldRecord_collected a b type fields field); try assumption.
      now apply (not_meta_head a ("." ^^ b)).
    + reflexivity.
    + reflexivity.
    + unfold describes. cbn.
      split; [exact N | split; [reflexivity | discriminate]].
  - rewrite (resolve_deep schema p D) in R. discriminate.
Qed.

End ResolverAgainstCollector.

(** X1 at the path of the field [Query.user] of the sample graph. *)
Lemma resolved_path_collected_witness :
  wfSchema sampleSchema = true /\
  JS.startsWith "Query.user" "__" = false /\
  exists d e, getElementDetails "Query.user" sampleSchema = Some d /\
              In e (collectSearchableElements sampleSchema) /\
              path e = "Query.user" /\ describes d e.
Proof.
  assert (W : wfSchema sampleSchema = true) by reflexivity.
  assert (M : JS.startsWith "Query.user" "__" = false) by reflexivity.
  split; [exact W|]. split; [exact M|].
  destruct (getElementDetails "Query.user" sampleSchema) as [d|] eqn:R;
    [|discriminate R].
  destruct (resolved_path_collected sampleSchema W "Query.user" d R M)
    as (e & Hin & P & _ & Hd).
  exists d, e. repeat split; try assumption; apply Hd.
Defined.

(** ** The details of a record and the record *)

Section DetailsOfRecords.

Variable schema : GraphQLSchema.
Hypothesis wellFormed : wfSchema schema = true.

Lemma normalize_argDetails (args : list GraphQLArgument) :
  map normalizeArg (argDetails args) = fieldArgsOf args.
Proof.
  unfold argDetails, fieldArgsOf. rewrite map_map. reflexivity.
Qed.

(** X2. In a well-formed graph, when the path of a collected record other
    than a directive resolves, the detail record carries the data of the
    record: the same description once an empty one is dropped, the same
    parent type, a printed type equal to the return type, and the same
    arguments once their empty descriptions are dropped. *)
Theorem details_agree_with_record (e : SearchableElement)
  (d : ElementDetails) :
  In e (collectSearchableElements schema) ->
  elementType e <> directive_element ->
  getElementDetails (path e) schema = Some d ->
  JS.orUndefined (d_description d) = description e /\
  d_parentType d = parentType e /\
  d_type d = returnType e /\
  option_map (map normalizeArg) (d_args d) = args e.
Proof.
  intros Hin NotDir R.
  destruct (addressable e) eqn:Addr.
  2: { rewrite (collected_path_unresolved schema wellFormed e Hin Addr) in R.
       discriminate. }
  apply collected_origin in Hin
    as [[[typeName type] (Hin & _ & He)] | [directive [Hin He]]].
  - destruct He as [<- | He].
    + destruct (type_path_resolves schema wellFormed typeName type Hin)
        as [R' _].
      cbn [path typeRecord fst snd] in R. rewrite R' in R.
      injection R as <-.
      now destruct type.
    + cbn [fst snd] in He.
      assert (F : forall fields, objectFields type = Some fields ->
                  In e (flat_map (fieldBlock typeName) fields) ->
                  JS.orUndefined (d_description d) = description e /\
                  d_parentType d = parentType e /\
                  d_type d = returnType e /\
                  option_map (map normalizeArg) (d_args d) = args e).
      { intros fields O Hb.
        apply in_flat_map in Hb as [[fieldName field] [Hf Hb]].
        destruct Hb as [<- | Hb].
        - destruct (field_path_resolves schema wellFormed typeName fieldName
                      type fields field Hin O Hf) as [R' _].
          cbn [path fieldRecord fst snd] in R. rewrite R' in R.
          injection R as <-. cbn. now rewrite normalize_argDetails.
        - apply in_map_iff in Hb as [arg [<- _]]. discriminate Addr. }
      destruct type as [n dd fields | n dd fields | n dd types | n dd values
                       | n dd fields | n dd]; simpl in He; try contradiction.
      * now apply (F fields).
      * now apply (F fields).
      * apply in_map_iff in He as [[fieldName field] [<- _]].
        discriminate Addr.
  - destruct He as [<- | He].
    + now contradiction NotDir.
    + apply in_map_iff in He as [arg [<- _]]. discriminate Addr.
Qed.

(** X3. In a well-formed graph, the fields that the details of a type list
    can be resolved one step further exactly for the object and interface
    types: a listed field with arguments resolves under [Type.field] to the
    details of that field, with the same name, printed type, description
    and arguments, and a listed field of an input object, which has no
    arguments, resolves to nothing. *)
Theorem type_details_fields_resolve (typeName : string) (d : ElementDetails)
  (listed : list FieldDetails) (fd : FieldDetails) :
  getElementDetails typeName schema = Some d ->
  d_elementType d = type_element ->
  d_fields d = Some listed ->
  In fd listed ->
  match fd_args fd with
  | Some fdArgs =>
      exists d', getElementDetails (typeName ^^ "." ^^ fd_name fd) schema =
                 Some d' /\
                 d_elementType d' = field_element /\
                 d_name d' = fd_name fd /\
                 d_parentType d' = Some typeName /\
                 d_type d' = Some (fd_type fd) /\
                 d_description d' = fd_description fd /\
                 d_args d' = Some fdArgs
  | None =>
      getElementDetails (typeName ^^ "." ^^ fd_name fd) schema = None
  end.
Proof.
  intros R Ty L Hfd.
  destruct (split_parts typeName) as [[D _] | [[D (a & b & S)] | [D _]]].
  - rewrite (resolve_bare schema typeName D) in R.
    destruct (JS.startsWith typeName "@").
    { destruct (getDirective schema (JS.slice1 typeName)); [|discriminate].
      injection R as <-. discriminate Ty. }
    destruct (getType schema typeName) as [type|] eqn:G; [|discriminate].
    injection R as <-. apply get_Some_In in G.
    destruct type as [n dd fields | n dd fields | n dd types | n dd values
                     | n dd fields | n dd]; cbn in L; try discriminate;
      injection L as <-; apply in_map_iff in Hfd as [field [<- Hf]];
      apply in_map_iff in Hf as [[fieldName field'] [E Hf]];
      cbn [snd] in E; subst field'.
    + destruct (field_path_resolves schema wellFormed typeName fieldName
                  _ fields field G eq_refl Hf) as [R' N].
      cbn. rewrite N. exists (fieldDetails typeName field).
      repeat split; assumption.
    + destruct (field_path_resolves schema wellFormed typeName fieldName
                  _ fields field G eq_refl Hf) as [R' N].
      cbn. rewrite N. exists (fieldDetails typeName field).
      repeat split; assumption.
    + pose proof (input_field_path_unresolved schema wellFormed typeName
                    fieldName n dd fields field G Hf) as R'.
      cbn [path inputFieldRecord] in R'. cbn [fd_args inputFieldDetails fd_name].
      destruct (wfObjMap_entry type_name wfType _ _ _
                  (wf_typeMap schema wellFormed) G) as (_ & _ & Wt & _).
      destruct (wfObjMap_entry ifield_name _ _ _ _
                  (wf_inputFields n dd fields Wt) Hf) as (_ & N & _).
      now rewrite N.
  - apply split_two in S as (-> & Ha & Hb).
    rewrite (resolve_dotted schema a b Ha Hb) in R.
    destruct (getType schema a) as [type|]; [|discriminate].
    destruct (objectFields type) as [fields|]; [|discriminate].
    destruct (JS.get fields b) as [field|]; [|discriminate].
    injection R as <-. discriminate Ty.
  - rewrite (resolve_deep schema typeName D) in R. discriminate.
Qed.

End DetailsOfRecords.

(** X2 at the record of the field [Query.user] of the sample graph. *)
Lemma details_agree_with_record_witness :
  wfSchema sampleSchema = true /\
  In queryUserField (collectSearchableElements sampleSchema) /\
  elementType queryUserField <> directive_element /\
  exists d, getElementDetails (path queryUserField) sampleSchema = Some d /\
            d_type d = returnType queryUserField /\
            option_map (map normalizeArg) (d_args d) = args queryUserField.
Proof.
  assert (W : wfSchema sampleSchema = true) by reflexivity.
  assert (I : In queryUserField (collectSearchableElements sampleSchema))
    by (vm_compute; tauto).
  assert (N : elementType queryUserField <> directive_element)
    by discriminate.
  split; [exact W|]. split; [exact I|]. split; [exact N|].
  destruct (getElementDetails (path queryUserField) sampleSchema)
    as [d|] eqn:R; [|discriminate R].
  exists d. split; [reflexivity|].
  apply (details_agree_with_record sampleSchema W queryUserField d I N R).
Defined.

(** X3 at the field [id] that the details of [User] list, and at the field
    [active] that the details of the input object [UserFilter] list. *)
Lemma type_details_fields_resolve_witness :
  wfSchema sampleSchema = true /\
  (exists d', getElementDetails "User.id" sampleSchema = Some d' /\
              d_type d' = Some "ID!") /\
  getElementDetails "UserFilter.active" sampleSchema = None.
Proof.
  assert (W : wfSchema sampleSchema = true) by reflexivity.
  split; [exact W|]. split.
  - destruct (type_details_fields_resolve sampleSchema W "User"
                (typeDetails userType)
                (map objectFieldDetails (JS.values
                   [("id", mkField "id" (GraphQLNonNull (GraphQLNamed "ID")) []);
                    ("name", mkField "name" (GraphQLNamed "String") [])]))
                userIdListed eq_refl eq_refl eq_refl (or_introl eq_refl))
      as (d' & R & _ & _ & _ & T & _).
    exists d'. split; [exact R | exact T].
  - exact (type_details_fields_resolve sampleSchema W "UserFilter"
             (typeDetails filterType) [activeListed] activeListed
             eq_refl eq_refl eq_refl (or_introl eq_refl)).
Defined.

(** ** The shape of the collected records *)

Section CollectedRecords.

Variable schema : GraphQLSchema.

Lemma orUndefined_not_empty (x : option JS.Text) :
  JS.orUndefined x <> Some [].
Proof. destruct x as [[|c s]|]; simpl; discriminate. Qed.

Lemma typeKindOf_known (type : GraphQLNamedType) :
  In (typeKindOf type)
     ["OBJECT"; "INTERFACE"; "UNION"; "ENUM"; "INPUT_OBJECT"; "SCALAR"].
Proof. destruct type; simpl; tauto. Qed.

(** What the blocks of the collector hold. *)
Lemma typeBlock_records (entry : string * GraphQLNamedType)
  (e : SearchableElement) :
  In e (typeBlock entry) ->
  e = typeRecord (fst entry) (snd entry) \/
  (exists fieldName field,
     e = fieldRecord (fst entry) fieldName field) \/
  (exists fieldName arg,
     e = argumentRecord (fst entry ^^ "." ^^ fieldName) arg) \/
  (exists fieldName field,
     e = inputFieldRecord (fst entry) fieldName field).
Proof.
  destruct entry as [typeName type]. unfold typeBlock. cbn [fst snd].
  intros [<- | H]; [now left | right].
  assert (F : forall fields : JS.ObjMap GraphQLField,
             In e (flat_map (fieldBlock typeName) fields) ->
             (exists fieldName field, e = fieldRecord typeName fieldName field)
             \/ (exists fieldName arg,
                   e = argumentRecord (typeName ^^ "." ^^ fieldName) arg)).
  { intros fields Hin.
    apply in_flat_map in Hin as [[fieldName field] [_ Hin]].
    destruct Hin as [<- | Hin].
    - left. now exists fieldName, field.
    - apply in_map_iff in Hin as [arg [<- _]]. right. now exists fieldName, arg. }
  destruct type as [n d fields | n d fields | n d types | n d values
                   | n d fields | n d]; simpl in H; try contradiction.
  - destruct (F fields H) as [K | K]; tauto.
  - destruct (F fields H) as [K | K]; tauto.
  - apply in_map_iff in H as [[fieldName field] [<- _]].
    right; right. now exists fieldName, field.
Qed.

Lemma directiveBlock_records (directive : GraphQLDirective)
  (e : SearchableElement) :
  In e (directiveBlock directive) ->
  e = directiveRecord directive \/
  exists arg, e = argumentRecord ("@" ^^ dir_name directive) arg.
Proof.
  intros [<- | H]; [now left | right].
  apply in_map_iff in H as [arg [<- _]]. now exists arg.
Qed.

Lemma fieldArgsOf_descriptions (args : list GraphQLArgument) (a : ArgInfo) :
  In a (fieldArgsOf args) -> ai_description a <> Some [].
Proof.
  unfold fieldArgsOf. intros H. apply in_map_iff in H as [arg [<- _]].
  apply orUndefined_not_empty.
Qed.

(** X4. Every collected record has the keys of its element type and no
    others: a type has one of the six kinds and no parent, return type or
    arguments; a field has a parent and has a return type exactly when it
    has an argument list; an argument has a parent only; a directive has
    none of these keys. No collected description is the empty string, on a
    record or on an entry of an argument list. *)
Theorem collected_record_shape (e : SearchableElement) :
  In e (collectSearchableElements schema) ->
  recordShape e /\
  description e <> Some [] /\
  (forall l a, args e = Some l -> In a l ->
               ai_description a <> Some []).
Proof.
  intros Hin. apply collected_origin in Hin
    as [[entry (_ & _ & He)] | [directive [_ He]]].
  - apply typeBlock_records in He
      as [-> | [(fn & f & ->) | [(fn & a & ->) | (fn & f & ->)]]];
      unfold recordShape; cbn.
    + split; [|split; [apply orUndefined_not_empty | discriminate]].
      repeat split. exists (typeKindOf (snd entry)).
      split; [reflexivity | apply typeKindOf_known].
    + split; [|split; [apply orUndefined_not_empty|]].
      * repeat split; discriminate.
      * intros l a E. injection E as <-. apply fieldArgsOf_descriptions.
    + split; [|split; [apply orUndefined_not_empty | discriminate]].
      repeat split; discriminate.
    + split; [|split; [apply orUndefined_not_empty | discriminate]].
      repeat split; discriminate.
  - apply directiveBlock_records in He as [-> | (a & ->)];
      unfold recordShape; cbn.
    + split; [|split; [apply orUndefined_not_empty | discriminate]].
      repeat split.
    + split; [|split; [apply orUndefined_not_empty | discriminate]].
      repeat split; discriminate.
Qed.

End CollectedRecords.

(** X4 at the argument record of the sample graph. *)
Lemma collected_record_shape_witness :
  In userIdArgument (collectSearchableElements sampleSchema) /\
  recordShape userIdArgument /\
  description userIdArgument <> Some [].
Proof.
  assert (I : In userIdArgument (collectSearchableElements sampleSchema))
    by (vm_compute; tauto).
  split; [exact I|].
  destruct (collected_record_shape sampleSchema userIdArgument I)
    as (S & D & _).
  split; [exact S | exact D].
Defined.

(** ** Parents in the collected list *)

Section Parents.

Variable schema : GraphQLSchema.

(** The block of an item of the loop, inside the result of the loop. *)
Lemma flat_map_split {A B : Type} (block : A -> list B) (l : list A)
  (x : A) :
  In x l ->
  exists before after, flat_map block l = before ++ block x ++ after.
Proof.
  intros Hin. apply in_split in Hin as (l1 & l2 & ->).
  exists (flat_map block l1), (flat_map block l2).
  rewrite flat_map_app. reflexivity.
Qed.

(** A record and a later record of a block keep their order in a list that
    holds the block. *)
Lemma within_block (block : list SearchableElement)
  (parent e : SearchableElement) (inner rest : list SearchableElement)
  (before after : list SearchableElement) :
  block = inner ++ parent :: rest -> In e rest ->
  exists before' after',
    before ++ block ++ after = before' ++ parent :: after' /\ In e after'.
Proof.
  intros -> Hin. exists (before ++ inner), (rest ++ after).
  split.
  - now rewrite <- !app_assoc.
  - apply in_or_app. now left.
Qed.

(** The parent of a record of a field block. *)
Lemma fieldBlock_parent (typeName : string) (entry : string * GraphQLField)
  (e : SearchableElement) :
  In e (fieldBlock typeName entry) ->
  e = fieldRecord typeName (fst entry) (snd entry) \/
  (parentType e = Some (typeName ^^ "." ^^ fst entry) /\
   elementType e = argument_element /\
   In e (map (argumentRecord (typeName ^^ "." ^^ fst entry))
             (field_args (snd entry)))).
Proof.
  intros [<- | H]; [now left | right].
  pose proof H as H'. apply in_map_iff in H' as [arg [<- _]].
  now repeat split.
Qed.

(** The parents inside the block of a type: a field points to the type,
    which opens the block, and an argument to its field, which comes before
    it. *)
Lemma typeBlock_parent (entry : string * GraphQLNamedType)
  (e : SearchableElement) (p : string) :
  In e (typeBlock entry) -> parentType e = Some p ->
  exists parent inner rest,
    typeBlock entry = inner ++ parent :: rest /\ In e rest /\
    path parent = p /\
    parentElementType (elementType e) (elementType parent).
Proof.
  destruct entry as [typeName type]. unfold typeBlock. cbn [fst snd].
  intros [<- | H] P; [discriminate P|].
  assert (F : forall fields : JS.ObjMap GraphQLField,
             fieldBlocks typeName type =
               flat_map (fieldBlock typeName) fields ->
             exists parent inner rest,
               typeRecord typeName type :: fieldBlocks typeName type =
                 inner ++ parent :: rest /\ In e rest /\
               path parent = p /\
               parentElementType (elementType e) (elementType parent)).
  { intros fields E. rewrite E in H |- *.
    apply in_flat_map in H as [fe [Hfe He]].
    destruct (flat_map_split (fieldBlock typeName) fields fe Hfe)
      as (before & after & S).
    apply fieldBlock_parent in He as [-> | (P' & Ty & Ha)].
    - exists (typeRecord typeName type), [],
        (flat_map (fieldBlock typeName) fields).
      injection P as <-. split; [reflexivity|].
      split; [|split; reflexivity].
      rewrite S. apply in_or_app. right. apply in_or_app. left. now left.
    - exists (fieldRecord typeName (fst fe) (snd fe)),
        (typeRecord typeName type :: before),
        (map (argumentRecord (typeName ^^ "." ^^ fst fe))
             (field_args (snd fe)) ++ after).
      rewrite P' in P. injection P as <-.
      split; [now rewrite S|]. split; [apply in_or_app; now left|].
      split; [reflexivity | rewrite Ty; now left]. }
  destruct type as [n d fields | n d fields | n d types | n d values
                   | n d fields | n d]; try (simpl in H; contradiction).
  - now apply (F fields).
  - now apply (F fields).
  - exists (typeRecord typeName (GraphQLInputObjectType n d fields)), [],
      (fieldBlocks typeName (GraphQLInputObjectType n d fields)).
    pose proof H as H'. simpl in H'.
    apply in_map_iff in H' as [[fieldName field] [<- _]].
    cbn in P. injection P as <-.
    split; [reflexivity|]. split; [exact H|]. split; reflexivity.
Qed.

(** X5. The parent type of a collected record is the path of a record that
    is collected before it: the type of a field, the field or the directive
    of an argument. *)
Theorem collected_parent_precedes (e : SearchableElement) (p : string) :
  In e (collectSearchableElements schema) ->
  parentType e = Some p ->
  exists parent before after,
    collectSearchableElements schema = before ++ parent :: after /\
    In e after /\
    path parent = p /\
    parentElementType (elementType e) (elementType parent).
Proof.
  intros Hin P.
  assert (Shape : collectSearchableElements schema =
                  flat_map typeBlock (nonMetaTypes schema) ++
                  flat_map directiveBlock (directives schema)).
  { unfold collectSearchableElements, nonMetaTypes.
    now rewrite collectDirective_loop, collectType_loop. }
  rewrite Shape in Hin |- *. apply in_app_or in Hin as [Hin | Hin].
  - apply in_flat_map in Hin as [entry [Hentry He]].
    destruct (flat_map_split typeBlock _ entry Hentry) as (b & a & S).
    destruct (typeBlock_parent entry e p He P)
      as (parent & inner & rest & B & Hrest & Pp & Ty).
    destruct (within_block (typeBlock entry) parent e inner rest b
                (a ++ flat_map directiveBlock (directives schema))
                B Hrest) as (b' & a' & E & Ha').
    exists parent, b', a'.
    split; [rewrite S, <- E, <- !app_assoc; reflexivity|].
    now repeat split.
  - apply in_flat_map in Hin as [directive [Hd He]].
    destruct (flat_map_split directiveBlock _ directive Hd) as (b & a & S).
    destruct He as [<- | He]; [discriminate P|].
    pose proof He as He'. apply in_map_iff in He' as [arg [<- _]].
    cbn in P. injection P as <-.
    exists (directiveRecord directive),
      (flat_map typeBlock (nonMetaTypes schema) ++ b),
      (map (argumentRecord ("@" ^^ dir_name directive))
           (dir_args directive) ++ a).
    split; [rewrite S; unfold directiveBlock; now rewrite <- !app_assoc|].
    split; [apply in_or_app; now left|].
    split; [reflexivity | now right].
Qed.

End Parents.

(** X5 at the argument record of the sample graph, whose parent is the
    record of the field [Query.user]. *)
Lemma collected_parent_precedes_witness :
  In userIdArgument (collectSearchableElements sampleSchema) /\
  parentType userIdArgument = Some "Query.user" /\
  exists parent, In parent (collectSearchableElements sampleSchema) /\
                 path parent = "Query.user".
Proof.
  assert (I : In userIdArgument (collectSearchableElements sampleSchema))
    by (vm_compute; tauto).
  split; [exact I|]. split; [reflexivity|].
  destruct (collected_parent_precedes sampleSchema userIdArgument
              "Query.user" I eq_refl)
    as (parent & before & after & E & _ & P & _).
  exists parent. split; [|exact P].
  rewrite E. apply in_or_app. right. now left.
Defined.

(** ** The paths of the collected records are distinct *)

Section DistinctPaths.

Lemma distinctKeys_NoDup (ks : list string) :
  distinctKeys ks = true -> NoDup ks.
Proof.
  induction ks as [|k ks IH]; simpl; intros H; constructor;
    apply andb_true_iff in H as [Hk Hks].
  - apply negb_true_iff in Hk. intros Hin.
    apply existsb_eqb_In in Hin. congruence.
  - now apply IH.
Qed.

Lemma NoDup_map_injective {A B : Type} (f : A -> B) (l : list A) :
  (forall x y, f x = f y -> x = y) -> NoDup l -> NoDup (map f l).
Proof.
  intros Inj. induction 1 as [|x l Hx _ IH]; simpl; constructor.
  - intros Hin. apply in_map_iff in Hin as [y [E Hy]].
    apply Inj in E. now subst.
  - exact IH.
Qed.

Lemma NoDup_map_filter {A B : Type} (f : A -> B) (keep : A -> bool)
  (l : list A) :
  NoDup (map f l) -> NoDup (map f (filter keep l)).
Proof.
  induction l as [|x l IH]; simpl; [trivial|].
  intros H. apply NoDup_cons_iff in H as [Hx Hl].
  destruct (keep x); simpl; [constructor|]; try now apply IH.
  intros Hin. apply Hx. apply in_map_iff in Hin as [y [E Hy]].
  apply filter_In in Hy as [Hy _]. rewrite <- E. now apply in_map.
Qed.

Lemma map_flat_map_blocks {A B C : Type} (f : B -> C) (block : A -> list B)
  (l : list A) :
  map f (flat_map block l) = flat_map (fun x => map f (block x)) l.
Proof.
  induction l as [|x l IH]; simpl; [reflexivity|].
  now rewrite map_app, IH.
Qed.

(** Blocks whose members all carry the key of their item are disjoint when
    the keys are distinct. *)
Lemma NoDup_flat_map_tagged {A : Type} (key : A -> string)
  (tag : string -> string) (block : A -> list string) (l : list A) :
  NoDup (map key l) ->
  (forall x, In x l -> NoDup (block x)) ->
  (forall x y, In x l -> In y (block x) -> tag y = key x) ->
  NoDup (flat_map block l).
Proof.
  induction l as [|a l IH]; simpl; intros K N T; [constructor|].
  apply NoDup_cons_iff in K as [Ka Kl].
  apply NoDup_app.
  - apply N. now left.
  - apply IH; [exact Kl | |]; intros; [apply N | apply (T x)]; auto.
  - intros y Hy Hy'. apply in_flat_map in Hy' as [x [Hx Hyx]].
    apply Ka. rewrite <- (T a y) by auto.
    rewrite (T x y) by auto. now apply in_map.
Qed.

Lemma append_inj_l (a x y : string) : a ^^ x = a ^^ y -> x = y.
Proof.
  induction a as [|c a IH]; simpl; [trivial|].
  intros H. injection H as H. now apply IH.
Qed.

(** Two strings that end with one character each are equal when their
    beginnings and their last characters are. *)
Lemma append_last_inj (s1 s2 : string) (a b : ascii) :
  s1 ^^ String a EmptyString = s2 ^^ String b EmptyString ->
  s1 = s2 /\ a = b.
Proof.
  revert s2; induction s1 as [|c s1 IH]; intros [|c' s2]; simpl; intros H.
  - injection H as <-. now split.
  - injection H as _ H. destruct s2; discriminate.
  - injection H as _ H. destruct s1; discriminate.
  - injection H as <- H. apply IH in H as [<- <-]. now split.
Qed.

Lemma nameHead_name (k : string) :
  allChars isNameContinue k = true -> nameHead k = k.
Proof.
  induction k as [|c k IH]; simpl; [reflexivity|].
  intros H. apply andb_true_iff in H as [Hc Hk]. now rewrite Hc, IH.
Qed.

Lemma nameHead_stops (k rest : string) (c : ascii) :
  allChars isNameContinue k = true -> isNameContinue c = false ->
  nameHead (k ^^ String c rest) = k.
Proof.
  intros Hk Hc. induction k as [|x k IH]; simpl.
  - now rewrite Hc.
  - simpl in Hk. apply andb_true_iff in Hk as [Hx Hk]. now rewrite Hx, IH.
Qed.

Lemma memberSuffixes_head (memberName : string)
  (args : list GraphQLArgument) (y : string) :
  validName memberName = true ->
  In y (memberSuffixes memberName args) -> nameHead y = memberName.
Proof.
  intros V [<- | H].
  - apply nameHead_name. now apply validName_allChars.
  - apply in_map_iff in H as [arg [<- _]].
    apply nameHead_stops; [now apply validName_allChars | reflexivity].
Qed.

Lemma memberSuffixes_NoDup (memberName : string)
  (args : list GraphQLArgument) :
  validName memberName = true ->
  NoDup (map arg_name args) ->
  NoDup (memberSuffixes memberName args).
Proof.
  intros V N. unfold memberSuffixes. constructor.
  - intros Hin. apply in_map_iff in Hin as [arg [E _]].
    rewrite <- E in V. now rewrite validName_no_parenthesis in V.
  - rewrite <- (map_map arg_name
                  (fun argName => memberName ^^ "(" ^^ argName ^^ ")")).
    apply NoDup_map_injective; [|exact N].
    intros x y E. apply append_inj_l in E. apply (append_inj_l "(") in E.
    now apply append_last_inj in E.
Qed.

(** The suffixes of members with distinct valid names and distinct
    argument names are distinct. *)
Lemma members_NoDup {A : Type} (nameOf : A -> string)
  (argsOf : A -> list GraphQLArgument) (items : list A) :
  NoDup (map nameOf items) ->
  (forall x, In x items ->
     validName (nameOf x) = true /\ NoDup (map arg_name (argsOf x))) ->
  NoDup (flat_map (fun x => memberSuffixes (nameOf x) (argsOf x)) items).
Proof.
  intros K W. apply (NoDup_flat_map_tagged nameOf nameHead); [exact K | |].
  - intros x Hx. destruct (W x Hx). now apply memberSuffixes_NoDup.
  - intros x y Hx Hy. destruct (W x Hx) as [V _].
    now apply (memberSuffixes_head (nameOf x) (argsOf x)).
Qed.

End DistinctPaths.

Section CollectedPaths.

Lemma wfObjMap_keys {A : Type} (nameOf : A -> string) (wfValue : A -> bool)
  (m : JS.ObjMap A) :
  wfObjMap nameOf wfValue m = true ->
  NoDup (map fst m) /\
  forall entry, In entry m ->
    validName (fst entry) = true /\ wfValue (snd entry) = true.
Proof.
  unfold wfObjMap. intros H. apply andb_true_iff in H as [D F]. split.
  - now apply distinctKeys_NoDup.
  - intros entry Hin. rewrite forallb_forall in F. specialize (F entry Hin).
    apply andb_true_iff in F as [F Hv]. apply andb_true_iff in F as [Hk _].
    now split.
Qed.

Lemma fieldBlock_paths (typeName : string) (entry : string * GraphQLField) :
  map path (fieldBlock typeName entry) =
  map (fun suffix => typeName ^^ "." ^^ suffix)
      (memberSuffixes (fst entry) (field_args (snd entry))).
Proof.
  unfold fieldBlock, memberSuffixes. cbn [map path fieldRecord].
  f_equal. rewrite !map_map. apply map_ext. intros arg.
  cbn [path argumentRecord]. now rewrite append_assoc.
Qed.

Lemma typeBlock_paths (typeName : string) (type : GraphQLNamedType) :
  map path (typeBlock (typeName, type)) =
  typeName :: map (fun suffix => typeName ^^ "." ^^ suffix)
                  (fieldSuffixes type).
Proof.
  unfold typeBlock. cbn [fst snd map path typeRecord]. f_equal.
  assert (F : forall fields : JS.ObjMap GraphQLField,
             map path (flat_map (fieldBlock typeName) fields) =
             map (fun suffix => typeName ^^ "." ^^ suffix)
                 (flat_map (fun entry : string * GraphQLField =>
                              memberSuffixes (fst entry)
                                             (field_args (snd entry)))
                           fields)).
  { intros fields. rewrite !map_flat_map_blocks. apply flat_map_ext.
    intros entry. apply fieldBlock_paths. }
  destruct type as [n d fields | n d fields | n d types | n d values
                   | n d fields | n d]; cbn [fieldBlocks fieldSuffixes];
    try reflexivity; try apply F.
  induction fields as [|entry fields IH]; simpl in *; [reflexivity|].
  now rewrite IH.
Qed.

Lemma directiveBlock_paths (directive : GraphQLDirective) :
  map path (directiveBlock directive) =
  map (String "@")
      (memberSuffixes (dir_name directive) (dir_args directive)).
Proof.
  unfold directiveBlock, memberSuffixes. cbn [map path directiveRecord].
  f_equal. rewrite !map_map. apply map_ext. intros arg. reflexivity.
Qed.

Lemma fieldSuffixes_NoDup (type : GraphQLNamedType) :
  wfType type = true -> distinctFieldArgs type = true ->
  NoDup (fieldSuffixes type).
Proof.
  assert (F : forall fields : JS.ObjMap GraphQLField,
             wfObjMap field_name (fun field => wfArgs (field_args field))
                      fields = true ->
             forallb (fun entry : string * GraphQLField =>
                        distinctArgNames (field_args (snd entry))) fields
               = true ->
             NoDup (flat_map (fun entry : string * GraphQLField =>
                                memberSuffixes (fst entry)
                                               (field_args (snd entry)))
                             fields)).
  { intros fields W D. apply wfObjMap_keys in W as [K V].
    apply (members_NoDup fst (fun entry => field_args (snd entry)));
      [exact K|].
    intros entry Hin. split; [now apply V|].
    rewrite forallb_forall in D. apply distinctKeys_NoDup. now apply D. }
  destruct type as [n d fields | n d fields | n d types | n d values
                   | n d fields | n d]; cbn; intros W D;
    try constructor; try now apply F.
  apply wfObjMap_keys in W as [K V].
  apply (members_NoDup fst (fun _ => [])); [exact K|].
  intros entry Hin. split; [now apply V | constructor].
Qed.

Lemma typeBlock_paths_NoDup (typeName : string) (type : GraphQLNamedType) :
  validName typeName = true -> wfType type = true ->
  distinctFieldArgs type = true ->
  NoDup (map path (typeBlock (typeName, type))).
Proof.
  intros V W D. rewrite typeBlock_paths. constructor.
  - intros Hin. apply in_map_iff in Hin as [suffix [E _]].
    apply (f_equal countDots) in E. rewrite countDots_dotted in E.
    rewrite (validName_dotless typeName V) in E. discriminate.
  - apply NoDup_map_injective; [|now apply fieldSuffixes_NoDup].
    intros x y E. apply append_inj_l in E. now apply (append_inj_l ".") in E.
Qed.

Lemma typeBlock_paths_head (typeName : string) (type : GraphQLNamedType)
  (y : string) :
  validName typeName = true ->
  In y (map path (typeBlock (typeName, type))) -> nameHead y = typeName.
Proof.
  intros V. rewrite typeBlock_paths. intros [<- | H].
  - apply nameHead_name. now apply validName_allChars.
  - apply in_map_iff in H as [suffix [<- _]].
    apply nameHead_stops; [now apply validName_allChars | reflexivity].
Qed.

Variable schema : GraphQLSchema.
Hypothesis wellFormed : wfSchema schema = true.
Hypothesis distinctNames : uniquelyNamed schema = true.

Lemma type_paths_NoDup :
  NoDup (map path (flat_map typeBlock (nonMetaTypes schema))).
Proof.
  pose proof (wf_typeMap schema wellFormed) as W.
  apply wfObjMap_keys in W as [K V].
  apply andb_true_iff in distinctNames as [_ D]. rewrite forallb_forall in D.
  rewrite map_flat_map_blocks.
  apply (NoDup_flat_map_tagged fst nameHead).
  - unfold nonMetaTypes. now apply NoDup_map_filter.
  - intros [typeName type] Hin. apply filter_In in Hin as [Hin _].
    destruct (V _ Hin) as [Vk Wt].
    apply typeBlock_paths_NoDup; [exact Vk | exact Wt | now apply (D _ Hin)].
  - intros [typeName type] y Hin Hy. apply filter_In in Hin as [Hin _].
    destruct (V _ Hin) as [Vk _].
    now apply (typeBlock_paths_head typeName type).
Qed.

Lemma directive_paths_NoDup :
  NoDup (map path (flat_map directiveBlock (directives schema))).
Proof.
  apply andb_true_iff in distinctNames as [D _].
  apply andb_true_iff in D as [Dn Da]. rewrite forallb_forall in Da.
  rewrite map_flat_map_blocks.
  rewrite (flat_map_ext _ _ directiveBlock_paths).
  rewrite <- (map_flat_map_blocks (String "@")
                (fun directive => memberSuffixes (dir_name directive)
                                                 (dir_args directive))).
  apply NoDup_map_injective; [intros x y E; now injection E|].
  apply (members_NoDup dir_name dir_args).
  - now apply distinctKeys_NoDup.
  - intros directive Hin. split.
    + now apply (wf_directive schema wellFormed).
    + apply distinctKeys_NoDup. now apply Da.
Qed.

(** X6. In a well-formed graph whose directives have distinct names and
    whose fields and directives have arguments of distinct names, no two
    collected records have the same path. *)
Theorem collected_paths_distinct :
  NoDup (map path (collectSearchableElements schema)).
Proof.
  unfold collectSearchableElements.
  rewrite collectDirective_loop, collectType_loop. cbn [app].
  rewrite map_app. apply NoDup_app.
  - apply type_paths_NoDup.
  - apply directive_paths_NoDup.
  - intros y Ht Hd.
    rewrite map_flat_map_blocks in Ht. rewrite map_flat_map_blocks in Hd.
    apply in_flat_map in Ht as [[typeName type] [Hin Hy]].
    apply in_flat_map in Hd as [directive [_ Hd]].
    apply filter_In in Hin as [Hin _].
    destruct (wfObjMap_entry type_name wfType _ _ _
                (wf_typeMap schema wellFormed) Hin) as (V & _).
    apply (typeBlock_paths_head typeName type y V) in Hy.
    rewrite directiveBlock_paths in Hd.
    apply in_map_iff in Hd as [suffix [<- _]].
    cbn in Hy. subst typeName. discriminate V.
Qed.

End CollectedPaths.

(** X6 at the sample graph. *)
Lemma collected_paths_distinct_witness :
  wfSchema sampleSchema = true /\
  uniquelyNamed sampleSchema = true /\
  NoDup (map path (collectSearchableElements sampleSchema)).
Proof.
  assert (W : wfSchema sampleSchema = true) by reflexivity.
  assert (U : uniquelyNamed sampleSchema = true) by reflexivity.
  split; [exact W|]. split; [exact U|].
  exact (collected_paths_distinct sampleSchema W U).
Defined.

(** ** Searching a record by its name *)

Section SearchByName.

Lemma name_unit_not_whitespace (c : ascii) :
  isNameContinue c = true -> JS.isWhitespace (N_of_ascii c) = false.
Proof.
  destruct c as [[] [] [] [] [] [] [] []]; vm_compute; congruence.
Qed.

(** The text of a name holds no whitespace. *)
Lemma name_units_no_whitespace (n : string) :
  allChars isNameContinue n = true -> noWhitespace (JS.unitsOf n) = true.
Proof.
  unfold noWhitespace. induction n as [|c n IH]; simpl; [reflexivity|].
  intros H. apply andb_true_iff in H as [Hc Hn].
  now rewrite (name_unit_not_whitespace c Hc), IH.
Qed.

Variable toLowerCase : JS.Text -> JS.Text.
Hypothesis lowerCaseLaws : LowerCaseLaws toLowerCase.

(** The only keyword of a name is the name in lower case. *)
Lemma keywordsOf_name (n : string) :
  validName n = true ->
  keywordsOf toLowerCase (JS.unitsOf n) = [toLowerCase (JS.unitsOf n)].
Proof.
  intros V. unfold keywordsOf, JS.splitWhitespace.
  rewrite splitRuns_one_piece
    by (apply (lower_no_whitespace _ lowerCaseLaws);
        apply name_units_no_whitespace; now apply validName_allChars).
  destruct (toLowerCase (JS.unitsOf n)) as [|c rest] eqn:E; [|reflexivity].
  apply (lower_non_empty _ lowerCaseLaws) in E.
  destruct n; [discriminate V | discriminate E].
Qed.

Variable schema : GraphQLSchema.
Hypothesis wellFormed : wfSchema schema = true.

Lemma wfArgs_valid (args : list GraphQLArgument) (arg : GraphQLArgument) :
  wfArgs args = true -> In arg args -> validName (arg_name arg) = true.
Proof.
  unfold wfArgs. rewrite forallb_forall. intros W Hin. now apply W.
Qed.

(** Every collected record is named by a valid name. *)
Lemma collected_name_valid (e : SearchableElement) :
  In e (collectSearchableElements schema) -> validName (name e) = true.
Proof.
  intros Hin. apply collected_origin in Hin
    as [[[typeName type] (Hin & _ & He)] | [directive [Hin He]]].
  - destruct (wfObjMap_entry type_name wfType _ _ _
                (wf_typeMap schema wellFormed) Hin) as (V & _ & Wt & _).
    destruct He as [<- | He]; [exact V|]. cbn [fst snd] in He.
    assert (F : forall fields : JS.ObjMap GraphQLField,
               wfObjMap field_name (fun field => wfArgs (field_args field))
                        fields = true ->
               In e (flat_map (fieldBlock typeName) fields) ->
               validName (name e) = true).
    { intros fields Wf Hb.
      apply in_flat_map in Hb as [[fieldName field] [Hf Hb]].
      destruct (wfObjMap_entry field_name _ _ _ _ Wf Hf)
        as (Vf & _ & Wa & _).
      destruct Hb as [<- | Hb]; [exact Vf|].
      apply in_map_iff in Hb as [arg [<- Ha]].
      now apply (wfArgs_valid (field_args field)). }
    destruct type as [n d fields | n d fields | n d types | n d values
                     | n d fields | n d]; simpl in He; try contradiction.
    + now apply (F fields).
    + now apply (F fields).
    + apply in_map_iff in He as [[fieldName field] [<- Hf]].
      now destruct (wfObjMap_entry ifield_name _ _ _ _
                      (wf_inputFields n d fields Wt) Hf) as (Vf & _).
  - destruct (wf_directive schema wellFormed directive Hin) as [V Wa].
    destruct He as [<- | He]; [exact V|].
    apply in_map_iff in He as [arg [<- Ha]].
    now apply (wfArgs_valid (dir_args directive)).
Qed.

(** X7. In a well-formed graph every collected record is among the results
    of the search for its own name. *)
Theorem collected_found_by_name (e : SearchableElement) :
  In e (collectSearchableElements schema) ->
  In e (searchSchemaElements toLowerCase (collectSearchableElements schema)
          (JS.unitsOf (name e))).
Proof.
  intros Hin. pose proof (collected_name_valid e Hin) as V.
  rewrite search_with_keywords
    by (rewrite (keywordsOf_name (name e) V); discriminate).
  apply filter_In. split; [exact Hin|].
  rewrite (keywordsOf_name (name e) V). unfold matchesAll. cbn [forallb].
  rewrite andb_true_r. apply textIncludes_iff.
  exists [], (32%N :: toLowerCase (JS.orEmpty (description e))).
  unfold searchableText.
  change (JS.unitsOf " " ++ JS.orEmpty (description e))
    with (32%N :: JS.orEmpty (description e)).
  now rewrite (lower_cut _ lowerCaseLaws) by (reflexivity || discriminate).
Qed.

End SearchByName.

(** X7 at the argument record of the sample graph. *)
Lemma collected_found_by_name_witness :
  wfSchema sampleSchema = true /\
  In userIdArgument (collectSearchableElements sampleSchema) /\
  In userIdArgument
     (searchSchemaElements exampleLowerCase
        (collectSearchableElements sampleSchema) (JS.unitsOf "id")).
Proof.
  assert (W : wfSchema sampleSchema = true) by reflexivity.
  assert (I : In userIdArgument (collectSearchableElements sampleSchema))
    by (vm_compute; tauto).
  split; [exact W|]. split; [exact I|].
  exact (collected_found_by_name exampleLowerCase exampleLowerCase_laws
           sampleSchema W userIdArgument I).
Defined.

(** ** Refining a search *)

Section SearchRefinement.

Variable toLowerCase : JS.Text -> JS.Text.
Hypothesis lowerCaseLaws : LowerCaseLaws toLowerCase.

(** The keywords of two queries joined by a space are the keywords of the
    first followed by those of the second. *)
Lemma keywordsOf_join (query1 query2 : JS.Text) :
  keywordsOf toLowerCase (query1 ++ JS.unitsOf " " ++ query2) =
  keywordsOf toLowerCase query1 ++ keywordsOf toLowerCase query2.
Proof.
  change (query1 ++ JS.unitsOf " " ++ query2) with (query1 ++ 32%N :: query2).
  apply (keywordsOf_cut toLowerCase lowerCaseLaws);
    [reflexivity | discriminate].
Qed.

Lemma matchesAll_app (keywords1 keywords2 : list JS.Text)
  (e : SearchableElement) :
  matchesAll toLowerCase (keywords1 ++ keywords2) e =
  matchesAll toLowerCase keywords1 e && matchesAll toLowerCase keywords2 e.
Proof. unfold matchesAll. apply forallb_app. Qed.

Lemma filter_after_filter {A : Type} (f g : A -> bool) (l : list A) :
  filter g (filter f l) = filter (fun x => f x && g x) l.
Proof.
  induction l as [|x l IH]; simpl; [reflexivity|].
  destruct (f x); simpl; [destruct (g x)|]; now rewrite IH.
Qed.

(** X8. Searching with two queries joined by a space, each with a keyword
    at least, is searching the results of the first query with the
    second. *)
Theorem search_refines (elements : list SearchableElement)
  (query1 query2 : JS.Text) :
  keywordsOf toLowerCase query1 <> [] ->
  keywordsOf toLowerCase query2 <> [] ->
  searchSchemaElements toLowerCase elements
    (query1 ++ JS.unitsOf " " ++ query2) =
  searchSchemaElements toLowerCase
    (searchSchemaElements toLowerCase elements query1) query2.
Proof.
  intros K1 K2.
  rewrite (search_with_keywords toLowerCase elements query1 K1).
  rewrite (search_with_keywords toLowerCase _ query2 K2).
  rewrite search_with_keywords.
  - rewrite keywordsOf_join, filter_after_filter.
    apply filter_ext. intros e. apply matchesAll_app.
  - rewrite keywordsOf_join.
    destruct (keywordsOf toLowerCase query1); [congruence|].
    discriminate.
Qed.

End SearchRefinement.

(** X8 at the queries [user] and [ACTIVE] on the sample graph. *)
Lemma search_refines_witness :
  keywordsOf exampleLowerCase (JS.unitsOf "user") <> [] /\
  keywordsOf exampleLowerCase (JS.unitsOf "ACTIVE") <> [] /\
  searchSchemaElements exampleLowerCase
    (collectSearchableElements sampleSchema) (JS.unitsOf "user ACTIVE") =
  searchSchemaElements exampleLowerCase
    (searchSchemaElements exampleLowerCase
       (collectSearchableElements sampleSchema) (JS.unitsOf "user"))
    (JS.unitsOf "ACTIVE").
Proof.
  assert (K1 : keywordsOf exampleLowerCase (JS.unitsOf "user") <> [])
    by (vm_compute; discriminate).
  assert (K2 : keywordsOf exampleLowerCase (JS.unitsOf "ACTIVE") <> [])
    by (vm_compute; discriminate).
  split; [exact K1|]. split; [exact K2|].
  exact (search_refines exampleLowerCase exampleLowerCase_laws
           (collectSearchableElements sampleSchema)
           (JS.unitsOf "user") (JS.unitsOf "ACTIVE") K1 K2).
Defined.

(** ** Printed types *)

Section PrintedTypes.

(** A string that holds a character that is not of a name is not a
    name. *)
Lemma validName_no_char (a b : string) (c : ascii) :
  isNameContinue c = false -> validName (a ^^ String c b) = false.
Proof.
  intros Hc. destruct (validName (a ^^ String c b)) eqn:V; [|reflexivity].
  apply validName_allChars in V. rewrite allChars_append in V.
  apply andb_true_iff in V as [_ V]. simpl in V. now rewrite Hc in V.
Qed.

(** X9. The type printer is injective on the type references whose named
    types have valid names: two such references with the same printed form
    are the same reference. *)
Theorem printGraphQLType_injective (R1 R2 : GraphQLType) :
  namesValid R1 = true -> namesValid R2 = true ->
  printGraphQLType R1 = printGraphQLType R2 -> R1 = R2.
Proof.
  revert R2; induction R1 as [n1 | R1 IH | R1 IH];
    intros [n2 | R2 | R2]; cbn [namesValid printGraphQLType]; intros V1 V2 E.
  - now rewrite E.
  - rewrite E in V1. now rewrite validName_no_char in V1.
  - rewrite E in V1. discriminate V1.
  - rewrite <- E in V2. now rewrite validName_no_char in V2.
  - apply append_last_inj in E as [E _]. f_equal. now apply IH.
  - change ("[" ^^ printGraphQLType R2 ^^ "]")
      with (String "[" (printGraphQLType R2) ^^ "]") in E.
    apply append_last_inj in E as [_ E]. discriminate E.
  - rewrite <- E in V2. discriminate V2.
  - change ("[" ^^ printGraphQLType R1 ^^ "]")
      with (String "[" (printGraphQLType R1) ^^ "]") in E.
    apply append_last_inj in E as [_ E]. discriminate E.
  - injection E as E. apply append_last_inj in E as [E _].
    f_equal. now apply IH.
Qed.

End PrintedTypes.

(** X9 at the reference [[ID!]!] written twice. *)
Lemma printGraphQLType_injective_witness :
  namesValid (GraphQLNonNull (GraphQLList (GraphQLNonNull (GraphQLNamed "ID"))))
    = true /\
  printGraphQLType
    (GraphQLNonNull (GraphQLList (GraphQLNonNull (GraphQLNamed "ID")))) =
  "[ID!]!" /\
  GraphQLNonNull (GraphQLList (GraphQLNonNull (GraphQLNamed "ID"))) =
  GraphQLNonNull (GraphQLList (GraphQLNonNull (GraphQLNamed "ID"))).
Proof.
  split; [reflexivity|]. split; [reflexivity|].
  exact (printGraphQLType_injective
           (GraphQLNonNull (GraphQLList (GraphQLNonNull (GraphQLNamed "ID"))))
           (GraphQLNonNull (GraphQLList (GraphQLNonNull (GraphQLNamed "ID"))))
           eq_refl eq_refl eq_refl).
Defined.

(** ** The tools of the server *)

Section Tools.

Lemma isMutation_iff (definitions : list DefinitionNode) :
  isMutation definitions = true <->
  exists def, In def definitions /\
              def_kind def = "OperationDefinition" /\
              def_operation def = Some "mutation".
Proof.
  unfold isMutation. rewrite existsb_exists. split.
  - intros [def [Hin H]]. exists def. split; [exact Hin|].
    apply andb_true_iff in H as [K O]. apply String.eqb_eq in K.
    destruct (def_operation def) as [operation|]; [|discriminate].
    apply String.eqb_eq in O. now subst.
  - intros [def (Hin & K & O)]. exists def. split; [exact Hin|].
    rewrite K, O. reflexivity.
Qed.

(** X10. The tool [query-graphql] goes on to send a query to the endpoint
    exactly when the query parses and either mutations are allowed or no
    definition of the document is a mutation operation. With mutations
    disabled, one mutation operation anywhere in the document, among
    queries, subscriptions or fragments, makes the tool return its fixed
    error result instead. *)
Theorem queryGate_passes_iff (parsed : Outcome (list DefinitionNode))
  (allowMutations : bool) :
  (queryGate parsed allowMutations = None <->
   exists definitions,
     parsed = Returned definitions /\
     (allowMutations = true \/
      forall def, In def definitions ->
        ~ (def_kind def = "OperationDefinition" /\
           def_operation def = Some "mutation"))) /\
  (forall before after def,
     def_kind def = "OperationDefinition" ->
     def_operation def = Some "mutation" ->
     queryGate (Returned (before ++ def :: after)) false =
     Some {| isError := true; text := mutationsNotAllowed |}).
Proof.
  split.
  - destruct parsed as [definitions | error]; simpl.
    + destruct (isMutation definitions) eqn:M; simpl.
      * apply isMutation_iff in M as [def (Hin & K & O)].
        destruct allowMutations; simpl; split.
        -- intros _. exists definitions. split; [reflexivity | now left].
        -- reflexivity.
        -- discriminate.
        -- intros [defs [E [A | N]]]; [discriminate A|].
           injection E as <-. exfalso. now apply (N def Hin).
      * split; [|reflexivity]. intros _. exists definitions.
        split; [reflexivity|]. right. intros def Hin [K O].
        assert (M' : isMutation definitions = true)
          by (apply isMutation_iff; now exists def).
        congruence.
    + split; [discriminate|]. intros [defs [E _]]. discriminate E.
  - intros before after def K O. unfold queryGate.
    assert (M : isMutation (before ++ def :: after) = true).
    { apply isMutation_iff. exists def. split; [|now split].
      apply in_or_app. right. now left. }
    now rewrite M.
Qed.

Variable schema : GraphQLSchema.
Hypothesis wellFormed : wfSchema schema = true.

(** The results of a search are among the elements searched. *)
Lemma search_results_searched (toLowerCase : JS.Text -> JS.Text)
  (elements : list SearchableElement) (query : JS.Text)
  (e : SearchableElement) :
  In e (searchSchemaElements toLowerCase elements query) -> In e elements.
Proof.
  unfold searchSchemaElements.
  destruct (length (keywordsOf toLowerCase query) =? 0); [contradiction|].
  intros H. now apply filter_In in H.
Qed.

(** The paths of the types, of the directives and of the fields with a
    return type resolve. *)
Lemma addressable_resolves (e : SearchableElement) :
  In e (collectSearchableElements schema) ->
  addressable e = true ->
  getElementDetails (path e) schema <> None.
Proof.
  intros Hin Addr. apply collected_origin in Hin
    as [[[typeName type] (Hin & _ & He)] | [directive [Hin He]]].
  - destruct He as [<- | He].
    + destruct (type_path_resolves schema wellFormed typeName type Hin)
        as [R _].
      cbn [path typeRecord fst snd]. now rewrite R.
    + cbn [fst snd] in He.
      assert (F : forall fields, objectFields type = Some fields ->
                  In e (flat_map (fieldBlock typeName) fields) ->
                  getElementDetails (path e) schema <> None).
      { intros fields O Hb.
        apply in_flat_map in Hb as [[fieldName field] [Hf Hb]].
        destruct Hb as [<- | Hb].
        - destruct (field_path_resolves schema wellFormed typeName fieldName
                      type fields field Hin O Hf) as [R _].
          cbn [path fieldRecord fst snd]. now rewrite R.
        - apply in_map_iff in Hb as [arg [<- _]]. discriminate Addr. }
      destruct type as [n d fields | n d fields | n d types | n d values
                       | n d fields | n d]; simpl in He; try contradiction.
      * now apply (F fields).
      * now apply (F fields).
      * apply in_map_iff in He as [[fieldName field] [<- _]].
        discriminate Addr.
  - destruct He as [<- | He].
    + destruct (directive_path_resolves schema wellFormed directive Hin)
        as (found & R & _).
      cbn [path directiveRecord]. now rewrite R.
    + apply in_map_iff in He as [arg [<- _]]. discriminate Addr.
Qed.

(** X11. For a well-formed graph that loads, the tool
    [get-schema-element-details] called with the path of a result of a
    search answers with the details when the result is a type, a directive
    or a field with a return type, and answers [Element not found] with an
    error when the result is an argument or a field of an input object. *)
Theorem details_tool_on_search_result
  (toLowerCase : JS.Text -> JS.Text)
  (stringify : ElementDetails -> string) (query : JS.Text)
  (e : SearchableElement) :
  In e (searchSchemaElements toLowerCase (collectSearchableElements schema)
          query) ->
  if addressable e
  then exists details,
         getElementDetails (path e) schema = Some details /\
         getSchemaElementDetailsTool stringify (Returned schema) (path e) =
         {| isError := false; text := stringify details |}
  else getSchemaElementDetailsTool stringify (Returned schema) (path e) =
       {| isError := true; text := "Element not found: " ^^ path e |}.
Proof.
  intros Hin. apply search_results_searched in Hin.
  unfold getSchemaElementDetailsTool.
  destruct (addressable e) eqn:Addr.
  - pose proof (addressable_resolves e Hin Addr) as R.
    destruct (getElementDetails (path e) schema) as [details|];
      [|congruence].
    now exists details.
  - now rewrite (collected_path_unresolved schema wellFormed e Hin Addr).
Qed.

End Tools.

(** X11 at the results of the search for [id] in the sample graph: the
    field [User.id] and the argument [Query.user(id)]. *)
Lemma details_tool_on_search_result_witness :
  wfSchema sampleSchema = true /\
  In userIdArgument
     (searchSchemaElements exampleLowerCase
        (collectSearchableElements sampleSchema) (JS.unitsOf "id")) /\
  getSchemaElementDetailsTool (fun d => d_name d) (Returned sampleSchema)
    (path userIdArgument) =
  {| isError := true; text := "Element not found: Query.user(id)" |}.
Proof.
  assert (W : wfSchema sampleSchema = true) by reflexivity.
  assert (I : In userIdArgument
                 (searchSchemaElements exampleLowerCase
                    (collectSearchableElements sampleSchema)
                    (JS.unitsOf "id")))
    by (vm_compute; tauto).
  split; [exact W|]. split; [exact I|].
  exact (details_tool_on_search_result sampleSchema W exampleLowerCase
           (fun d => d_name d) (JS.unitsOf "id") userIdArgument I).
Defined.
